(** * Aiyagari_PFI_Small: the stationary equilibrium of an Aiyagari economy

    A shallow embedding of [Aiyagari_PFI_Small.py] (the grid builder, the
    household solver, the Monte Carlo engine and the equilibrium loop) and
    the properties of it that the specification states.

    Conventions of the embedding.
    - The control flow of the solvers (which branch is taken, which message
      is printed, which exception is raised) is studied over the exact
      rationals: there a numpy float is a [Q], [==] is the equality of
      rationals, and the exponents [sigma] and [curv] are integers, as the
      values the source gives them (2 and 3).
    - Where a property turns on rounding or on the range of binary64 (the
      spacing of the grid, the overflow of a power), the function is
      embedded over Rocq's primitive floats, in module [Binary64], with the
      operations rounded as the machine rounds them.
    - A one-dimensional array is a list, a two-dimensional array a list of
      rows.  Indexing follows Python: an index out of range raises, a
      negative index counts from the end.
    - A function that can raise returns a [result]; over the rationals a
      float operation that leaves the finite reals (a zero raised to a
      negative power) is the failure [NonFinite].
    - Library functions whose code is not part of the program (the
      iterations of [brentq], the power of floats, the matrix inverse) are
      parameters of the embedding, with an instance to run it. *)

From Stdlib Require Import String.
From Stdlib Require Import QArith Qabs Qpower ZArith List Lia Lqa Bool PeanoNat Sorted.
From Stdlib Require Floats.
Import ListNotations.
Local Open Scope Q_scope.

(** ** Failures and the error monad *)

Inductive failure : Type :=
| IndexError
| ValueError
| NameError
| NonFinite
| LinAlgError
| AssertionError (msg : string)
| Exception (msg : string).

Inductive result (A : Type) : Type :=
| Ok (a : A)
| Raise (e : failure).

Arguments Ok {A} a.
Arguments Raise {A} e.

Definition bind {A B : Type} (m : result A) (k : A -> result B) : result B :=
  match m with
  | Ok a => k a
  | Raise e => Raise e
  end.

Notation "x <- m ;; k" := (bind m (fun x => k))
  (at level 61, m at next level, right associativity).
Notation "' pat <- m ;; k" := (bind m (fun x => match x with pat => k end))
  (at level 61, pat pattern, m at next level, right associativity).

Definition is_ok {A : Type} (m : result A) : bool :=
  match m with Ok _ => true | Raise _ => false end.

(** [for x in xs: s = body(x, s)], stopping at the first failure. *)
Fixpoint for_each {I S : Type} (xs : list I) (s : S)
    (body : I -> S -> result S) : result S :=
  match xs with
  | [] => Ok s
  | x :: xs' => s' <- body x s ;; for_each xs' s' body
  end.

(** [range(a, b)] for naturals [a <= b] is [seq a (b - a)]. *)
Definition range (a b : nat) : list nat := seq a (b - a).

(** [enumerate(xs)]. *)
Definition enumerate {A : Type} (xs : list A) : list (nat * A) :=
  combine (seq 0 (length xs)) xs.

(** ** Arrays with Python indexing *)

(** The position an index denotes in an array of length [len]. *)
Definition py_index (len : nat) (i : Z) : result nat :=
  if (0 <=? i)%Z then
    if (i <? Z.of_nat len)%Z then Ok (Z.to_nat i) else Raise IndexError
  else
    if (- Z.of_nat len <=? i)%Z then Ok (Z.to_nat (Z.of_nat len + i))
    else Raise IndexError.

Fixpoint set_nth {A : Type} (l : list A) (n : nat) (v : A) : list A :=
  match l, n with
  | [], _ => []
  | _ :: l', O => v :: l'
  | x :: l', S n' => x :: set_nth l' n' v
  end.

(** [a[i]]. *)
Definition get (a : list Q) (i : Z) : result Q :=
  k <- py_index (length a) i ;;
  match nth_error a k with Some v => Ok v | None => Raise IndexError end.

(** [a[i] = v]. *)
Definition store (a : list Q) (i : Z) (v : Q) : result (list Q) :=
  k <- py_index (length a) i ;; Ok (set_nth a k v).

(** [m[i, :]]. *)
Definition get_row (m : list (list Q)) (i : Z) : result (list Q) :=
  k <- py_index (length m) i ;;
  match nth_error m k with Some v => Ok v | None => Raise IndexError end.

(** [m[i, j]]. *)
Definition get2 (m : list (list Q)) (i j : Z) : result Q :=
  row <- get_row m i ;; get row j.

(** [m[i, j] = v]; every row of a numpy matrix has the same length. *)
Definition store2 (m : list (list Q)) (i j : Z) (v : Q)
    : result (list (list Q)) :=
  k <- py_index (length m) i ;;
  match nth_error m k with
  | Some row => row' <- store row j v ;; Ok (set_nth m k row')
  | None => Raise IndexError
  end.

(** [np.zeros(n)] and [np.zeros((n, m))]. *)
Definition zeros (n : nat) : list Q := repeat 0 n.
Definition zeros2 (n m : nat) : list (list Q) := repeat (zeros m) n.

(** [np.sum] of a vector. *)
Definition sumQ (l : list Q) : Q := fold_right Qplus 0 l.

(** ** Grid builder: [make_grid] *)

(** [grd[i] = min_val + scale * (i / (num - 1)) ** curv]; the division is
    Python's true division of two integers. *)
Definition grid_point (min_val scale : Q) (num : nat) (curv : Z) (i : nat) : Q :=
  min_val + scale * (inject_Z (Z.of_nat i) / inject_Z (Z.of_nat num - 1)) ^ curv.

Definition make_grid (min_val max_val : Q) (num : nat) (curv : Z)
    : result (list Q) :=
  let grd := zeros num in
  let scale := max_val - min_val in
  grd <- store grd 0 min_val ;;
  grd <- store grd (Z.of_nat num - 1) max_val ;;
  for_each (range 1 (num - 1)) grd
    (fun i grd => store grd (Z.of_nat i) (grid_point min_val scale num curv i)).

Example make_grid_5 :
  make_grid 0 100 5 3 =
  Ok [0; 0 + (100 - 0) * (1 / (5 - 1)) ^ 3; 0 + (100 - 0) * (2 / (5 - 1)) ^ 3;
      0 + (100 - 0) * (3 / (5 - 1)) ^ 3; 100].
Proof. reflexivity. Qed.

Example make_grid_1 : make_grid 0 100 1 3 = Ok [100].
Proof. reflexivity. Qed.

Example make_grid_0 : make_grid 0 100 0 3 = Raise IndexError.
Proof. reflexivity. Qed.

(** ** Numerical helpers *)

(** [np.sign]. *)
Definition sign (x : Q) : Q :=
  if Qlt_le_dec 0 x then 1 else if Qlt_le_dec x 0 then -1 else 0.

(** [np.fmax]. *)
Definition fmax (x y : Q) : Q := if Qlt_le_dec x y then y else x.

(** [x ** n] for a float [x] and an integer [n]: zero to a negative power is
    not a finite real. *)
Definition fpow (x : Q) (n : Z) : result Q :=
  if Qeq_bool x 0 && (n <? 0)%Z then Raise NonFinite else Ok (x ^ n).

(** [np.interp(x_vals, x, y)] at one point: flat outside the knots, linear
    between the last knot that is [<= x_vals] and the next one. *)
Fixpoint interp_from (x0 y0 : Q) (xs ys : list Q) (v : Q) : Q :=
  match xs, ys with
  | x1 :: xs', y1 :: ys' =>
      if Qlt_le_dec v x1 then (y1 - y0) / (x1 - x0) * (v - x0) + y0
      else interp_from x1 y1 xs' ys' v
  | _, _ => y0
  end.

Definition interp (x y : list Q) (x_vals : Q) : result Q :=
  if negb (length x =? length y)%nat then Raise ValueError
  else
    match x, y with
    | x0 :: xs, y0 :: ys =>
        if Qlt_le_dec x_vals x0 then Ok y0
        else Ok (interp_from x0 y0 xs ys x_vals)
    | _, _ => Raise ValueError
    end.

(** ** Household: marginal utility and the Euler equation residual *)

Definition eps : Q := 1 # 100000000.

(** [u_prime(c, sigma)]. *)
Definition u_prime (c : Q) (sigma : Z) : result Q := fpow (fmax c eps) (- sigma).

(** The tuple [params_eer]. *)
Record params_eer : Type := ParamsEer {
  eer_a : Q;
  eer_z : Q;
  eer_pol_sav_old : list (list Q);
  eer_i_z : nat;
  eer_r : Q;
  eer_w : Q;
  eer_beta : Q;
  eer_sigma : Z;
  eer_pi : list (list Q);
  eer_grid_z : list Q;
  eer_grid_a : list Q
}.

(** One round of the loop over next period's productivity. *)
Definition marg_u_step (a_plus : Q) (p : params_eer) (i_zz : nat)
    (avg_marg_u_plus : Q) : result Q :=
  z_plus <- get (eer_grid_z p) (Z.of_nat i_zz) ;;
  row <- get_row (eer_pol_sav_old p) (Z.of_nat i_zz) ;;
  sav <- interp (eer_grid_a p) row a_plus ;;
  let c_plus := (1 + eer_r p) * a_plus + eer_w p * z_plus - sav in
  marg_u_plus <- u_prime c_plus (eer_sigma p) ;;
  weight <- get2 (eer_pi p) (Z.of_nat (eer_i_z p)) (Z.of_nat i_zz) ;;
  Ok (avg_marg_u_plus + weight * marg_u_plus).

(** [euler_eq_residual(a_plus, params_eer)]. *)
Definition euler_eq_residual (a_plus : Q) (p : params_eer) : result Q :=
  let Nz := length (eer_grid_z p) in
  let c := (1 + eer_r p) * eer_a p + eer_w p * eer_z p - a_plus in
  avg_marg_u_plus <- for_each (range 0 Nz) 0 (marg_u_step a_plus p) ;;
  let ee_rhs := (1 + eer_r p) * eer_beta p * avg_marg_u_plus in
  marg_u <- u_prime c (eer_sigma p) ;;
  Ok (marg_u - ee_rhs).

Example interp_knots :
  (interp [0; 1; 3] [10; 20; 40] (-1), interp [0; 1; 3] [10; 20; 40] 0,
   interp [0; 1; 3] [10; 20; 40] 3, interp [0; 1; 3] [10; 20; 40] 7)
  = (Ok 10, Ok 10, Ok 40, Ok 40).
Proof. reflexivity. Qed.

Example interp_between :
  match interp [0; 1; 3] [10; 20; 40] 2 with Ok v => v == 30 | Raise _ => False end.
Proof. vm_compute. reflexivity. Qed.

Example u_prime_clamped :
  match u_prime (-5) 2 with Ok v => v == 10000000000000000 | Raise _ => False end.
Proof. vm_compute. reflexivity. Qed.

(** The shapes the household solver gives the tuple: a non-empty asset
    grid, one row of [pol_sav_old] per productivity state, each as long as
    the asset grid, and a row [i_z] of [pi] with an entry per state. *)
Definition well_shaped (p : params_eer) : bool :=
  let Nz := length (eer_grid_z p) in
  let Na := length (eer_grid_a p) in
  (0 <? Na)%nat
  && (Nz <=? length (eer_pol_sav_old p))%nat
  && forallb (fun row => (length row =? Na)%nat) (firstn Nz (eer_pol_sav_old p))
  && match nth_error (eer_pi p) (eer_i_z p) with
     | Some row => (Nz <=? length row)%nat
     | None => false
     end.

(** ** Household: policy function iteration, [solve_hh] *)

(** A [for] loop whose body can [break]. *)
Inductive flow (S : Type) : Type :=
| Continue (s : S)
| Break (s : S).

Arguments Continue {S} s.
Arguments Break {S} s.

Definition flow_state {S : Type} (f : flow S) : S :=
  match f with Continue s | Break s => s end.

Fixpoint for_each_break {I S : Type} (xs : list I) (s : S)
    (body : I -> S -> result (flow S)) : result S :=
  match xs with
  | [] => Ok s
  | x :: xs' =>
      f <- body x s ;;
      match f with
      | Continue s' => for_each_break xs' s' body
      | Break s' => Ok s'
      end
  end.

(** The tuple [params_pfi]. *)
Record params_pfi : Type := ParamsPfi {
  pfi_beta : Q;
  pfi_pi : list (list Q);
  pfi_grid_a : list Q;
  pfi_grid_z : list Q;
  pfi_sigma : Z;
  pfi_maxit : nat;
  pfi_tol : Q
}.

(** [m[i, :] = row], whose length must be the number of columns. *)
Definition store_row (m : list (list Q)) (i : Z) (row : list Q)
    : result (list (list Q)) :=
  k <- py_index (length m) i ;;
  match nth_error m k with
  | Some old =>
      if (length old =? length row)%nat then Ok (set_nth m k row)
      else Raise ValueError
  | None => Raise IndexError
  end.

(** [u - v] of two vectors of one length. *)
Fixpoint vsub (u v : list Q) : result (list Q) :=
  match u, v with
  | [], [] => Ok []
  | x :: u', y :: v' => t <- vsub u' v' ;; Ok ((x - y) :: t)
  | _, _ => Raise ValueError
  end.

(** [np.abs(m1 - m2).max()] of two matrices of one shape. *)
Fixpoint amax (l : list Q) : result Q :=
  match l with
  | [] => Raise ValueError
  | [x] => Ok x
  | x :: l' => m <- amax l' ;; Ok (fmax x m)
  end.

Fixpoint abs_diff (m1 m2 : list (list Q)) : result (list Q) :=
  match m1, m2 with
  | [], [] => Ok []
  | r1 :: m1', r2 :: m2' =>
      d <- vsub r1 r2 ;; t <- abs_diff m1' m2' ;; Ok (map Qabs d ++ t)
  | _, _ => Raise ValueError
  end.

Definition sup_dist (m1 m2 : list (list Q)) : result Q :=
  d <- abs_diff m1 m2 ;; amax d.

Section Household.

(** The root finder is quantecon's [brentq]: it evaluates the function at
    the two end points, refuses end points of one strict sign, returns an
    end point whose value is exactly zero (the upper one when both are), and
    otherwise iterates Brent's method.  The iterations are a parameter of the
    embedding: [brent_iterations f a b fa fb]. *)
Variable brent_iterations :
  (Q -> result Q) -> Q -> Q -> Q -> Q -> result Q.

Definition bisect_interval (a b fa fb : Q) : result (Q * bool) :=
  if Qlt_le_dec 0 (fa * fb) then Raise ValueError
  else
    let root := 0 in
    let status := false in
    let '(root, status) := if Qeq_bool fa 0 then (a, true) else (root, status) in
    let '(root, status) := if Qeq_bool fb 0 then (b, true) else (root, status) in
    Ok (root, status).

Definition brentq (f : Q -> result Q) (a b : Q) : result Q :=
  fpre <- f a ;;
  fcur <- f b ;;
  '(root, status) <- bisect_interval a b fpre fcur ;;
  if status then Ok root else brent_iterations f a b fpre fcur.

Variables (p : params_pfi) (r w : Q).

Definition params_eer_at (pol_sav_old : list (list Q)) (i_z : nat) (z a : Q)
    : params_eer :=
  ParamsEer a z pol_sav_old i_z r w (pfi_beta p) (pfi_sigma p) (pfi_pi p)
            (pfi_grid_z p) (pfi_grid_a p).

(** The body of the two inner loops: next period's assets at the grid point
    [(i_z, i_a)], where [z] and [a] are the values of the two grids there. *)
Definition solve_point (pol_sav_old : list (list Q)) (i_z : nat) (z a : Q)
    : result Q :=
  lb_aplus <- get (pfi_grid_a p) 0 ;;
  let ub_aplus := (1 + r) * a + w * z in
  let params := params_eer_at pol_sav_old i_z z a in
  res_lb <- euler_eq_residual lb_aplus params ;;
  let eulersign_lb := sign res_lb in
  if Qeq_bool eulersign_lb 1 then Ok lb_aplus
  else
    res_ub <- euler_eq_residual ub_aplus params ;;
    let eulersign_ub := sign res_ub in
    if Qeq_bool (eulersign_lb * eulersign_ub) 1 then
      Raise (Exception
        "Sign of lower bound and upperbound are the same - no solution to Euler Equation."%string)
    else brentq (fun x => euler_eq_residual x params) lb_aplus ub_aplus.

(** The loop over the asset grid for one productivity state, followed by the
    consumption policy of that state. *)
Definition hh_row (pol_sav_old : list (list Q)) (iz : nat * Q)
    (pol : list (list Q) * list (list Q))
    : result (list (list Q) * list (list Q)) :=
  let '(i_z, z) := iz in
  let '(pol_sav, pol_cons) := pol in
  pol_sav <- for_each (enumerate (pfi_grid_a p)) pol_sav
    (fun ia pol_sav =>
       let '(i_a, a) := ia in
       v <- solve_point pol_sav_old i_z z a ;;
       store2 pol_sav (Z.of_nat i_z) (Z.of_nat i_a) v) ;;
  z_i <- get (pfi_grid_z p) (Z.of_nat i_z) ;;
  sav_row <- get_row pol_sav (Z.of_nat i_z) ;;
  cons_row <- vsub (map (fun a => (1 + r) * a + w * z_i) (pfi_grid_a p)) sav_row ;;
  pol_cons <- store_row pol_cons (Z.of_nat i_z) cons_row ;;
  Ok (pol_sav, pol_cons).

(** One sweep over the state space. *)
Definition hh_sweep (pol_sav_old : list (list Q))
    (pol : list (list Q) * list (list Q))
    : result (list (list Q) * list (list Q)) :=
  for_each (enumerate (pfi_grid_z p)) pol (hh_row pol_sav_old).

(** The state of the iteration: [pol_sav_old], [pol_sav], [pol_cons] and the
    loop variable [it].  The function is compiled by numba, where [it] is a
    machine integer that is zero until the loop assigns it. *)
Record hh_state : Type := HhState {
  hh_pol_sav_old : list (list Q);
  hh_pol_sav : list (list Q);
  hh_pol_cons : list (list Q);
  hh_it : nat
}.

Definition hh_iteration (it : nat) (st : hh_state) : result (flow hh_state) :=
  '(pol_sav, pol_cons) <-
     hh_sweep (hh_pol_sav_old st) (hh_pol_sav st, hh_pol_cons st) ;;
  dist <- sup_dist pol_sav (hh_pol_sav_old st) ;;
  if Qlt_le_dec dist (pfi_tol p) then
    Ok (Break (HhState (hh_pol_sav_old st) pol_sav pol_cons it))
  else
    Ok (Continue (HhState pol_sav pol_sav pol_cons it)).

(** [solve_hh(params_pfi, r, w)]. *)
Definition solve_hh : result (list (list Q) * list (list Q) * nat) :=
  let Na := length (pfi_grid_a p) in
  let Nz := length (pfi_grid_z p) in
  let init := HhState (zeros2 Nz Na) (zeros2 Nz Na) (zeros2 Nz Na) 0 in
  st <- for_each_break (range 0 (pfi_maxit p)) init hh_iteration ;;
  Ok (hh_pol_sav st, hh_pol_cons st, hh_it st).

End Household.

(** The loop of quantecon's [bisect], of the same module as [brentq]: an
    instance of the iterations with which the solver can be run. *)
Fixpoint bisect_loop (fuel : nat) (f : Q -> result Q) (xa dm fa : Q) : result Q :=
  match fuel with
  | O => Raise (Exception "Failed to converge"%string)
  | S fuel' =>
      let dm := dm * (1 # 2) in
      let xm := xa + dm in
      fm <- f xm ;;
      let xa := if Qlt_le_dec (fm * fa) 0 then xa else xm in
      if Qeq_bool fm 0
         || (if Qlt_le_dec (Qabs dm)
                  ((2 # 1000000000000) + (1 # 1000000000000000) * Qabs xm)
             then true else false)
      then Ok xm
      else bisect_loop fuel' f xa dm fa
  end.

Definition bisect_iterations (f : Q -> result Q) (a b fa fb : Q) : result Q :=
  bisect_loop 100 f a (b - a) fa.

(** The entry [(i, j)] of a matrix, for indices known to be naturals. *)
Definition entry (m : list (list Q)) (i j : nat) : option Q :=
  match nth_error m i with
  | Some row => nth_error row j
  | None => None
  end.

(** A household with discount factor 1/4, one productivity state and the
    asset grid [0, 1], for the interest rate 0 and the wage 1. *)
Definition pfi_quarter : params_pfi :=
  ParamsPfi (1 # 4) [[1]] [0; 1] [1] 2 2000 (1 # 1000000).

(** A household with discount factor 1/2 facing the interest rate 1, so that
    [(1 + r) * beta = 1], a borrowing limit of -1 and a wage of 1/2: at the
    asset level -1 the cash on hand, -3/2, lies below the borrowing limit. *)
Definition pfi_below_limit : params_pfi :=
  ParamsPfi (1 # 2) [[1]] [-1; 0] [1] 2 1 (1 # 1000000).

(** ** Equilibrium: the outer loop of [solve_model] *)

(** [diff_old] holds a float or [np.inf]. *)
Inductive ext : Type :=
| Fin (x : Q)
| Inf.

(** [np.abs]. *)
Definition ext_abs (e : ext) : ext :=
  match e with Fin x => Fin (Qabs x) | Inf => Inf end.

(** [x > e] for a float [x]. *)
Definition gt_ext (x : Q) (e : ext) : bool :=
  match e with
  | Fin y => if Qlt_le_dec y x then true else false
  | Inf => false
  end.

(** What the loop prints. *)
Inductive message : Type :=
| MsgIteration (n : nat)
| MsgConvergence
| MsgNewGuess (r_guess diff : Q)
| MsgNoConvergence.

Definition is_no_convergence (m : message) : bool :=
  match m with MsgNoConvergence => true | _ => false end.

Definition is_convergence (m : message) : bool :=
  match m with MsgConvergence => true | _ => false end.

Definition is_iteration (m : message) : bool :=
  match m with MsgIteration _ => true | _ => false end.

(** The attributes of the model that the loop reads. *)
Record ss_params : Type := SsParams {
  ss_beta : Q;
  ss_r_tol : Q;
  dp_big : Q;
  dp_small : Q;
  maxit_ss : nat
}.

(** Their values in [setup_parameters]. *)
Definition setup_parameters : ss_params :=
  SsParams (96 # 100) (1 # 10000) (1 # 10) (1 # 100) 100.

(** The variables of the loop; [diff_old] and [it] are unbound before the
    first round. *)
Record ss_state : Type := SsState {
  ss_r_guess : Q;
  ss_diff_old : option ext;
  ss_it : option nat;
  ss_out : list message
}.

(** What [solve_model] leaves behind: [self.r_ss] and the printed lines. *)
Record ss_solution : Type := SsSolution {
  r_ss : Q;
  printed : list message
}.

Section Equilibrium.

(** [ge_algorithm]: the residual [r_ss_guess - r_ss_new] of a guess, through
    the household solver and a distribution engine, either of which can
    raise. *)
Variable ge_algorithm : Q -> result Q.
Variable prm : ss_params.

Definition ss_iteration (it : nat) (st : ss_state) : result (flow ss_state) :=
  let out := ss_out st ++ [MsgIteration (it + 1)] in
  let r_guess := ss_r_guess st in
  let diff_old := Inf in
  diff <- ge_algorithm r_guess ;;
  if Qlt_le_dec (Qabs diff) (ss_r_tol prm) then
    Ok (Break (SsState r_guess (Some diff_old) (Some it) (out ++ [MsgConvergence])))
  else
    let r_guess :=
      if gt_ext (Qabs diff) (ext_abs diff_old)
      then r_guess - dp_small prm * diff
      else r_guess - dp_big prm * diff in
    let out := out ++ [MsgNewGuess r_guess diff] in
    let diff_old := Fin diff in
    Ok (Continue (SsState r_guess (Some diff_old) (Some it) out)).

(** [solve_model], up to the assignment of [self.r_ss]. *)
Definition solve_model : result ss_solution :=
  let r_guess := 2 # 100 in
  if Qlt_le_dec ((1 + r_guess) * ss_beta prm) 1 then
    st <- for_each_break (range 0 (maxit_ss prm))
            (SsState r_guess None None []) ss_iteration ;;
    match ss_it st with
    | None => Raise NameError
    | Some it =>
        let out :=
          if (Z.of_nat (maxit_ss prm) - 1 <? Z.of_nat it)%Z
          then ss_out st ++ [MsgNoConvergence]
          else ss_out st in
        Ok (SsSolution (ss_r_guess st) out)
    end
  else Raise (AssertionError "Stability condition violated."%string).

End Equilibrium.

(** A residual that grows from the first guess to the second and vanishes at
    the third. *)
Definition ge_growing (r_guess : Q) : result Q :=
  if Qeq_bool r_guess (2 # 100) then Ok (1 # 100)
  else if Qeq_bool r_guess (19 # 1000) then Ok (2 # 100)
  else Ok 0.

(** A residual that never meets the tolerance. *)
Definition ge_far (r_guess : Q) : result Q := Ok 1.

(** ** Distribution engines: Monte Carlo simulation *)

(** [a[i]] and [a[i] = v] for arrays of integers. *)
Definition get_int (a : list Z) (i : Z) : result Z :=
  k <- py_index (length a) i ;;
  match nth_error a k with Some v => Ok v | None => Raise IndexError end.

Definition store_int (a : list Z) (i : Z) (v : Z) : result (list Z) :=
  k <- py_index (length a) i ;; Ok (set_nth a k v).

(** [np.linspace(0, 1, n)]. *)
Definition linspace01 (n : nat) : list Q :=
  match n with
  | 1%nat => [0]
  | _ => map (fun i => inject_Z (Z.of_nat i) / inject_Z (Z.of_nat n - 1)) (seq 0 n)
  end.

(** [np.mean] of a non-empty vector. *)
Definition mean (l : list Q) : result Q :=
  match l with
  | [] => Raise NonFinite
  | _ => Ok (sumQ l / inject_Z (Z.of_nat (length l)))
  end.

(** The tuple [params_sim]. *)
Record params_sim : Type := ParamsSim {
  sim_a0 : list Q;
  sim_z0 : list Z;
  sim_simN : nat;
  sim_simT : nat;
  sim_grid_z : list Q;
  sim_grid_a : list Q;
  sim_sigma : Z;
  sim_beta : Q;
  sim_pi : list (list Q);
  sim_seed : nat
}.

(** The arrays of the simulation and the counter [edge]. *)
Record sim_state : Type := SimState {
  st_sim_sav : list Q;
  st_sim_c : list Q;
  st_sim_m : list Q;
  st_sim_z : list Q;
  st_sim_z_idx : list Z;
  st_sim_k : list Q;
  st_edge : nat
}.

Section MonteCarlo.

(** The generator: [shuffle seed t draw] is the array [draw] after the
    [np.random.shuffle] of period [t], for a generator seeded with [seed]. *)
Variable shuffle : nat -> nat -> list Q -> list Q.

Variables (pol_sav : list (list Q)) (r w : Q) (prm : params_sim).

(** One agent in one period, steps i to vii; the Euler equation error of
    step vii writes [euler_error_sim] only and is left out, with that
    array. *)
Definition simulate_agent (t : nat) (draw : list Q) (i : nat) (st : sim_state)
    : result sim_state :=
  let iZ := Z.of_nat i in
  '(z_lag_idx, a_lag) <-
     (if (t =? 0)%nat then
        z <- get_int (sim_z0 prm) iZ ;; a <- get (sim_a0 prm) iZ ;; Ok (z, a)
      else
        z <- get_int (st_sim_z_idx st) iZ ;; a <- get (st_sim_sav st) iZ ;;
        Ok (z, a)) ;;
  d <- get draw iZ ;;
  p_high <- get2 (sim_pi prm) z_lag_idx 1 ;;
  let z_idx := if Qlt_le_dec p_high d then 0%Z else 1%Z in
  sim_z_idx <- store_int (st_sim_z_idx st) iZ z_idx ;;
  z <- get (sim_grid_z prm) z_idx ;;
  sim_z <- store (st_sim_z st) iZ z ;;
  let y := w * z in
  let m := (1 + r) * a_lag + y in
  sim_m <- store (st_sim_m st) iZ m ;;
  row <- get_row pol_sav z_idx ;;
  sav <- interp (sim_grid_a prm) row a_lag ;;
  a_min <- get (sim_grid_a prm) 0 ;;
  let sav := if Qlt_le_dec sav a_min then a_min else sav in
  sim_sav <- store (st_sim_sav st) iZ sav ;;
  sim_c <- store (st_sim_c st) iZ (m - sav) ;;
  top <- get2 pol_sav z_idx (-1) ;;
  let edge := if Qlt_le_dec sav top then st_edge st else (st_edge st + 1)%nat in
  Ok (SimState sim_sav sim_c sim_m sim_z sim_z_idx (st_sim_k st) edge).

(** One period: the draws, the aggregate capital and the loop over agents. *)
Definition simulate_period (t : nat) (st : sim_state) : result sim_state :=
  let draw := shuffle (sim_seed prm) t (linspace01 (sim_simN prm)) in
  k <- (if (t <=? 0)%nat then mean (sim_a0 prm) else mean (st_sim_sav st)) ;;
  sim_k <- store (st_sim_k st) (Z.of_nat t) k ;;
  let st := SimState (st_sim_sav st) (st_sim_c st) (st_sim_m st) (st_sim_z st)
                     (st_sim_z_idx st) sim_k (st_edge st) in
  for_each (range 0 (sim_simN prm)) st (simulate_agent t draw).

(** The simulation up to the grid size evaluation. *)
Definition simulate_paths : result sim_state :=
  let simN := sim_simN prm in
  let init := SimState (zeros simN) (zeros simN) (zeros simN) (zeros simN)
                       (repeat 0%Z simN) (zeros (sim_simT prm)) 0 in
  for_each (range 0 (sim_simT prm)) init simulate_period.

(** [edge / grid_a.size], a true division of two integers. *)
Definition frac_outside (edge : nat) : result Q :=
  match sim_grid_a prm with
  | [] => Raise NonFinite
  | _ => Ok (inject_Z (Z.of_nat edge) / inject_Z (Z.of_nat (length (sim_grid_a prm))))
  end.

End MonteCarlo.

(** [simulate_MonteCarlo(pol_cons, pol_sav, r, w, params_sim)], which never
    reads [pol_cons]; the result is [(sim_k, sim_sav, sim_z, sim_c, sim_m)]. *)
Definition simulate_MonteCarlo (shuffle : nat -> nat -> list Q -> list Q)
    (pol_cons pol_sav : list (list Q)) (r w : Q) (prm : params_sim)
    : result (list Q * list Q * list Q * list Q * list Q) :=
  st <- simulate_paths shuffle pol_sav r w prm ;;
  frac <- frac_outside prm (st_edge st) ;;
  if Qlt_le_dec (1 # 100) frac then Raise (Exception "Increase grid size!"%string)
  else Ok (st_sim_k st, st_sim_sav st, st_sim_z st, st_sim_c st, st_sim_m st).

(** The asset grid of [setup_parameters] for a borrowing limit of zero. *)
Definition grid_a_200 : list Q :=
  match make_grid 0 100 200 3 with Ok grd => grd | Raise _ => [] end.

(** A single agent who starts at the top of the asset grid, with the savings
    policy "keep the assets".  The shuffle of a one-element array is that
    array. *)
Definition sim_one_agent : params_sim :=
  ParamsSim [100] [0%Z] 1 1 [1 # 2; 3 # 2] grid_a_200 2 (96 # 100)
            [[3 # 4; 1 # 4]; [1 # 4; 3 # 4]] 123.

Definition shuffle_one (seed t : nat) (draw : list Q) : list Q := draw.

(** The number of agents of a simulated cross-section who stand at the top
    edge: at or above their policy's value at the last grid point. *)
Definition agents_at_top (pol_sav : list (list Q)) (sim_sav : list Q)
    (sim_z_idx : list Z) : nat :=
  length (filter
    (fun sz => match get2 pol_sav (snd sz) (-1) with
               | Ok top => if Qlt_le_dec (fst sz) top then false else true
               | Raise _ => false
               end)
    (combine sim_sav sim_z_idx)).

(** A row-stochastic matrix on [n] states: [n] rows of [n] non-negative
    entries that sum to one. *)
Definition row_stochastic (n : nat) (pi : list (list Q)) : Prop :=
  length pi = n
  /\ Forall (fun row => length row = n /\ sumQ row == 1
                        /\ Forall (fun v => 0 <= v) row) pi.

(** ** The grid builder and the Euler equation residual over binary64

    [make_grid], [u_prime], [interp] and [euler_eq_residual] once more, with
    a numpy float as a binary64 number and every operation rounded as the
    machine rounds it. *)

Module Binary64.

Import PrimFloat.
Local Open Scope float_scope.
#[local] Set Warnings "-inexact-float".

(** [float(n)] for a Python integer; exact below [2 ** 53], which every
    array length and index is. *)
Definition of_int (n : Z) : float :=
  if (n <? 0)%Z then - of_uint63 (Uint63.of_Z (- n))
  else of_uint63 (Uint63.of_Z n).

(** [a[i]]. *)
Definition get (a : list float) (i : Z) : result float :=
  k <- py_index (length a) i ;;
  match nth_error a k with Some v => Ok v | None => Raise IndexError end.

(** [a[i] = v]. *)
Definition store (a : list float) (i : Z) (v : float) : result (list float) :=
  k <- py_index (length a) i ;; Ok (set_nth a k v).

(** [m[i, :]]. *)
Definition get_row (m : list (list float)) (i : Z) : result (list float) :=
  k <- py_index (length m) i ;;
  match nth_error m k with Some v => Ok v | None => Raise IndexError end.

(** [m[i, j]]. *)
Definition get2 (m : list (list float)) (i j : Z) : result float :=
  row <- get_row m i ;; get row j.

(** [np.zeros(n)]. *)
Definition zeros (n : nat) : list float := repeat 0 n.

(** [np.fmax]: the larger of the two, a NaN giving way to a number. *)
Definition fmax (x y : float) : float :=
  if is_nan x then y else if is_nan y then x else if x <? y then y else x.

Definition eps : float := 1e-8.

(** [np.interp(x_vals, x, y)] at one point, for increasing knots [x]: a NaN
    is returned as it is, the value is flat outside the knots and at a knot
    it is the knot's; between two knots it is linear, evaluated from the
    left knot, and from the right knot when that is a NaN. *)
Definition interp_between (x0 y0 x1 y1 v : float) : float :=
  let slope := (y1 - y0) / (x1 - x0) in
  let res := slope * (v - x0) + y0 in
  if is_nan res then
    let res := slope * (v - x1) + y1 in
    if is_nan res && (y0 =? y1) then y0 else res
  else res.

Fixpoint interp_from (x0 y0 : float) (xs ys : list float) (v : float) : float :=
  match xs, ys with
  | x1 :: xs', y1 :: ys' =>
      if v <? x1 then
        if x0 =? v then y0 else interp_between x0 y0 x1 y1 v
      else interp_from x1 y1 xs' ys' v
  | _, _ => y0
  end.

Definition interp (x y : list float) (x_vals : float) : result float :=
  if negb (length x =? length y)%nat then Raise ValueError
  else
    match x, y with
    | [_], [y0] => Ok y0
    | x0 :: xs, y0 :: ys =>
        if is_nan x_vals then Ok x_vals
        else if x_vals <? x0 then Ok y0
        else Ok (interp_from x0 y0 xs ys x_vals)
    | _, _ => Raise ValueError
    end.

(** The tuple [params_eer]. *)
Record params_eer : Type := ParamsEer {
  eer_a : float;
  eer_z : float;
  eer_pol_sav_old : list (list float);
  eer_i_z : nat;
  eer_r : float;
  eer_w : float;
  eer_beta : float;
  eer_sigma : float;
  eer_pi : list (list float);
  eer_grid_z : list float;
  eer_grid_a : list float
}.

(** The shapes the household solver gives the tuple. *)
Definition well_shaped (p : params_eer) : bool :=
  let Nz := length (eer_grid_z p) in
  let Na := length (eer_grid_a p) in
  (0 <? Na)%nat
  && (Nz <=? length (eer_pol_sav_old p))%nat
  && forallb (fun row => (length row =? Na)%nat) (firstn Nz (eer_pol_sav_old p))
  && match nth_error (eer_pi p) (eer_i_z p) with
     | Some row => (Nz <=? length row)%nat
     | None => false
     end.

Section Power.

(** [x ** y] for a float [x] is a function of the language's run time, the
    [pow] of the C library or numba's loop for an integer exponent: a
    parameter of the embedding.  An exponent that is a Python integer
    arrives as the float of its value. *)
Variable pow : float -> float -> float.

(** [grd[i] = min_val + scale * (i / (num - 1)) ** curv]. *)
Definition grid_point (min_val scale : float) (num : nat) (curv : float)
    (i : nat) : float :=
  min_val + scale * pow (of_int (Z.of_nat i) / of_int (Z.of_nat num - 1)) curv.

Definition make_grid (min_val max_val : float) (num : nat) (curv : float)
    : result (list float) :=
  let grd := zeros num in
  let scale := max_val - min_val in
  grd <- store grd 0 min_val ;;
  grd <- store grd (Z.of_nat num - 1) max_val ;;
  for_each (range 1 (num - 1)) grd
    (fun i grd => store grd (Z.of_nat i) (grid_point min_val scale num curv i)).

(** [u_prime(c, sigma)]. *)
Definition u_prime (c sigma : float) : float := pow (fmax c eps) (- sigma).

(** One round of the loop over next period's productivity. *)
Definition marg_u_step (a_plus : float) (p : params_eer) (i_zz : nat)
    (avg_marg_u_plus : float) : result float :=
  z_plus <- get (eer_grid_z p) (Z.of_nat i_zz) ;;
  row <- get_row (eer_pol_sav_old p) (Z.of_nat i_zz) ;;
  sav <- interp (eer_grid_a p) row a_plus ;;
  let c_plus := (1 + eer_r p) * a_plus + eer_w p * z_plus - sav in
  let marg_u_plus := u_prime c_plus (eer_sigma p) in
  weight <- get2 (eer_pi p) (Z.of_nat (eer_i_z p)) (Z.of_nat i_zz) ;;
  Ok (avg_marg_u_plus + weight * marg_u_plus).

(** [euler_eq_residual(a_plus, params_eer)]. *)
Definition euler_eq_residual (a_plus : float) (p : params_eer) : result float :=
  let Nz := length (eer_grid_z p) in
  let c := (1 + eer_r p) * eer_a p + eer_w p * eer_z p - a_plus in
  avg_marg_u_plus <- for_each (range 0 Nz) 0 (marg_u_step a_plus p) ;;
  let ee_rhs := (1 + eer_r p) * eer_beta p * avg_marg_u_plus in
  Ok (u_prime c (eer_sigma p) - ee_rhs).

End Power.

(** The integer a float holds, when it holds one. *)
Definition to_int (y : float) : Z :=
  match FloatOps.Prim2SF y with
  | SpecFloat.S754_finite s m e =>
      let n := Z.shiftl (Z.pos m) e in if s then (- n)%Z else n
  | _ => 0%Z
  end.

(** An instance of the power for exponents that are integers: numba's loop
    for a float base and an integer exponent, which squares and multiplies
    and inverts the product for a negative exponent.  Where every product
    is a binary64 number, as for the powers of 1/2, it is the exact power,
    and so the value of a correctly rounded [pow] as well. *)
Fixpoint int_power (r a : float) (exp : positive) : float :=
  match exp with
  | xH => r * a
  | xO exp' => int_power r (a * a) exp'
  | xI exp' => int_power (r * a) (a * a) exp'
  end.

Definition pow_int (x y : float) : float :=
  match to_int y with
  | Z0 => 1
  | Zpos exp => int_power 1 x exp
  | Zneg exp => 1 / int_power 1 x exp
  end.

(** *** The stationary distribution of the Markov chain: [stationary_mc] *)

(** [m[i, j] = v]. *)
Definition store2 (m : list (list float)) (i j : Z) (v : float)
    : result (list (list float)) :=
  k <- py_index (length m) i ;;
  match nth_error m k with
  | Some row => row' <- store row j v ;; Ok (set_nth m k row')
  | None => Raise IndexError
  end.

(** [m.shape] of a two-dimensional array. *)
Definition shape (m : list (list float)) : nat * nat :=
  (length m, match m with [] => 0%nat | row :: _ => length row end).

(** [np.dot(x, m)] for a vector and a matrix: entry [j] is the sum of
    [x[i] * m[i, j]] over the rows. *)
Fixpoint dot_column (x : list float) (m : list (list float)) (j : nat)
    : result float :=
  match x, m with
  | [], [] => Ok 0
  | xi :: x', row :: m' =>
      v <- get row (Z.of_nat j) ;;
      rest <- dot_column x' m' j ;;
      Ok (xi * v + rest)
  | _, _ => Raise ValueError
  end.

Definition dot (x : list float) (m : list (list float)) : result (list float) :=
  let ncols := snd (shape m) in
  for_each (range 0 ncols) [] (fun j out => v <- dot_column x m j ;; Ok (out ++ [v])).

(** [p[i, i] = p[i, i] - 1]. *)
Definition subtract_one (i : nat) (p : list (list float))
    : result (list (list float)) :=
  v <- get2 p (Z.of_nat i) (Z.of_nat i) ;;
  store2 p (Z.of_nat i) (Z.of_nat i) (v - 1).

Section Inverse.

(** [np.linalg.inv], which raises [LinAlgError] on a singular matrix: a
    parameter of the embedding. *)
Variable inv : list (list float) -> result (list (list float)).

(** [stationary_mc(pi)].  [np.zeros(nrows - 1)] refuses a negative size. *)
Definition stationary_mc (pi : list (list float)) : result (list float) :=
  let p := pi in
  let '(nrows, ncols) := shape p in
  p <- for_each (range 0 nrows) p subtract_one ;;
  let q := map (firstn (nrows - 1)) p in
  let q := map (fun row => row ++ [1]) q in
  if (nrows =? 0)%nat then Raise ValueError
  else
    let x := zeros (nrows - 1) in
    let x := x ++ [1] in
    q_inv <- inv q ;;
    dot x q_inv.

End Inverse.

(** The system that [stationary_mc] inverts, written from the first
    [nrows - 1] columns of [pi] alone: row [i] is the first [nrows - 1]
    entries of row [i] of [pi], less one on the diagonal, and a one. *)
Definition linear_system (pi : list (list float)) : list (list float) :=
  let nrows := length pi in
  map (fun '(i, row) =>
         let cols := firstn (nrows - 1) row in
         (if (i <? nrows - 1)%nat then set_nth cols i (nth i cols 0 - 1)
          else cols) ++ [1])
      (enumerate pi).

(** An instance of the inverse, for the matrices with two rows: the adjugate
    over the determinant. *)
Definition inv_2x2 (m : list (list float)) : result (list (list float)) :=
  match m with
  | [[a; b]; [c; d]] =>
      let det := a * d - b * c in
      if det =? 0 then Raise LinAlgError
      else Ok [[d / det; - b / det]; [- c / det; a / det]]
  | _ => Raise LinAlgError
  end.

(** The chain of the program, a matrix with the same first column whose
    rows sum to 9.75 and 9.25, and one with a third column. *)
Definition pi_chain : list (list float) := [[0.75; 0.25]; [0.25; 0.75]].
Definition pi_no_sums : list (list float) := [[0.75; 9]; [0.25; 9]].
Definition pi_wide : list (list float) := [[0.75; 0.25; 9]; [0.25; 0.75; 9]].

(** A household with the risk aversion [sigma], one productivity state, the
    asset grid [0, 1] and an old policy that saves [sav] everywhere. *)
Definition eer_one_state (sigma sav : float) : params_eer :=
  ParamsEer 0 1 [[sav; sav]] 0 0 1 0.9 sigma [[1]] [1] [0; 1].

End Binary64.

(** * Properties *)

(** ** The error monad and the arrays *)

Lemma bind_ok {A B : Type} (m : result A) (k : A -> result B) (b : B) :
  bind m k = Ok b -> exists a, m = Ok a /\ k a = Ok b.
Proof. destruct m as [a|e]; simpl; intros H; [eauto | discriminate]. Qed.

Lemma py_index_nat (len i : nat) :
  (i < len)%nat -> py_index len (Z.of_nat i) = Ok i.
Proof.
  intros Hi. unfold py_index.
  destruct (Z.leb_spec 0 (Z.of_nat i)); [|lia].
  destruct (Z.ltb_spec (Z.of_nat i) (Z.of_nat len)); [|lia].
  now rewrite Nat2Z.id.
Qed.

Lemma py_index_lt (len : nat) (i : Z) (k : nat) :
  py_index len i = Ok k -> (k < len)%nat.
Proof.
  unfold py_index.
  destruct (Z.leb_spec 0 i).
  - destruct (Z.ltb_spec i (Z.of_nat len)); [|discriminate].
    intros [= <-]. lia.
  - destruct (Z.leb_spec (- Z.of_nat len) i); [|discriminate].
    intros [= <-]. lia.
Qed.

Lemma length_set_nth {A : Type} (l : list A) (n : nat) (v : A) :
  length (set_nth l n v) = length l.
Proof.
  revert n; induction l as [|x l IH]; intros [|n]; simpl; auto.
Qed.

Lemma set_nth_app {A : Type} (pre : list A) (x : A) (post : list A) (v : A) :
  set_nth (pre ++ x :: post) (length pre) v = pre ++ v :: post.
Proof. induction pre as [|y pre IH]; simpl; [reflexivity | now rewrite IH]. Qed.

Lemma nth_error_set_nth {A : Type} (l : list A) (n k : nat) (v : A) :
  nth_error (set_nth l n v) k =
  if Nat.eqb k n then (if Nat.ltb n (length l) then Some v else None)
  else nth_error l k.
Proof.
  revert n k; induction l as [|x l IH]; intros n k; simpl.
  - destruct (Nat.eqb k n); destruct k, n; reflexivity.
  - destruct n as [|n], k as [|k]; simpl; try reflexivity.
    rewrite IH. destruct (Nat.eqb k n); [|reflexivity].
    change (S n <? S (length l))%nat with (n <? length l)%nat. reflexivity.
Qed.

Lemma store_app (pre : list Q) (x : Q) (post : list Q) (v : Q) :
  store (pre ++ x :: post) (Z.of_nat (length pre)) v = Ok (pre ++ v :: post).
Proof.
  unfold store. rewrite py_index_nat.
  - simpl. now rewrite set_nth_app.
  - rewrite length_app. simpl. lia.
Qed.

Lemma length_zeros (n : nat) : length (zeros n) = n.
Proof. apply repeat_length. Qed.

(** A loop that stores [f i] at every index [i] of a slice fills the slice
    with the values of [f]. *)
Lemma for_each_store_slice (f : nat -> Q) (k : nat) :
  forall (a : nat) (pre l post : list Q),
    length pre = a -> length l = k ->
    for_each (seq a k) (pre ++ l ++ post)
      (fun i grd => store grd (Z.of_nat i) (f i))
    = Ok (pre ++ map f (seq a k) ++ post).
Proof.
  induction k as [|k IH]; intros a pre l post Ha Hl.
  - destruct l; [reflexivity | discriminate].
  - destruct l as [|x l]; [discriminate|].
    simpl. rewrite <- Ha at 1. rewrite store_app. simpl.
    change (pre ++ f a :: l ++ post) with (pre ++ [f a] ++ (l ++ post)).
    rewrite app_assoc.
    rewrite (IH (S a) (pre ++ [f a]) l post).
    + now rewrite <- app_assoc.
    + rewrite length_app. simpl. lia.
    + simpl in Hl. lia.
Qed.

(** ** The grid builder *)

(** The closed form of the grid for [num >= 2]. *)
Lemma make_grid_closed_form (min_val max_val : Q) (num : nat) (curv : Z) :
  (2 <= num)%nat ->
  make_grid min_val max_val num curv =
  Ok (min_val ::
      map (grid_point min_val (max_val - min_val) num curv) (seq 1 (num - 2))
      ++ [max_val]).
Proof.
  intros Hn. unfold make_grid.
  assert (Hz : zeros num = [] ++ 0 :: zeros (num - 2) ++ [0]).
  { unfold zeros. replace num with (1 + (num - 2) + 1)%nat at 1 by lia.
    now rewrite !repeat_app. }
  rewrite Hz. rewrite (store_app [] 0). simpl bind.
  change (min_val :: zeros (num - 2) ++ [0])
    with ((min_val :: zeros (num - 2)) ++ [0]).
  replace (Z.of_nat num - 1)%Z
    with (Z.of_nat (length (min_val :: zeros (num - 2)))).
  2:{ simpl length. rewrite length_zeros. lia. }
  rewrite (store_app (min_val :: zeros (num - 2)) 0 [] max_val).
  simpl bind. unfold range. replace (num - 1 - 1)%nat with (num - 2)%nat by lia.
  apply (for_each_store_slice _ (num - 2) 1 [min_val] (zeros (num - 2)) [max_val]).
  - reflexivity.
  - apply length_zeros.
Qed.

Lemma Qpower_positive_lt_compat (a b : Q) (p : positive) :
  0 <= a -> a < b -> a ^ Z.pos p < b ^ Z.pos p.
Proof.
  intros Ha Hab. simpl.
  induction p as [|p IH] using Pos.peano_ind.
  - simpl. exact Hab.
  - rewrite <- Pos.add_1_r. rewrite !Qpower_plus_positive. simpl.
    assert (H0 : 0 <= Qpower_positive a p) by now apply Qpower_pos_positive.
    nra.
Qed.

Lemma StronglySorted_nth_error (l : list Q) :
  (forall i j x y, (i < j)%nat ->
     nth_error l i = Some x -> nth_error l j = Some y -> x < y) ->
  StronglySorted Qlt l.
Proof.
  induction l as [|a l IH]; intros H; constructor.
  - apply IH. intros i j x y Hij Hx Hy. exact (H (S i) (S j) x y ltac:(lia) Hx Hy).
  - apply Forall_forall. intros y Hy.
    destruct (In_nth_error _ _ Hy) as [j Hj].
    exact (H 0%nat (S j) a y ltac:(lia) eq_refl Hj).
Qed.

Section GridFacts.

Variables (min_val max_val : Q) (num : nat) (curv : Z).
Hypothesis Hminmax : min_val < max_val.
Hypothesis Hnum : (2 <= num)%nat.
Hypothesis Hcurv : (0 < curv)%Z.

Let point := grid_point min_val (max_val - min_val) num curv.

Lemma grid_point_first : point 0 == min_val.
Proof.
  unfold point, grid_point. simpl inject_Z at 1.
  assert (E : 0 / inject_Z (Z.of_nat num - 1) == 0) by (unfold Qdiv; ring).
  rewrite E, Qpower_0 by lia. ring.
Qed.

Lemma grid_point_last : point (num - 1) == max_val.
Proof.
  unfold point, grid_point.
  replace (Z.of_nat (num - 1)) with (Z.of_nat num - 1)%Z by lia.
  assert (E : inject_Z (Z.of_nat num - 1) / inject_Z (Z.of_nat num - 1) == 1).
  { field. intros C.
    apply (Qeq_bool_neq (inject_Z (Z.of_nat num - 1)) 0); [|exact C].
    unfold Qeq_bool. simpl. rewrite Z.mul_1_r. apply Z.eqb_neq. lia. }
  rewrite E, Qpower_1. ring.
Qed.

Lemma grid_point_lt (i j : nat) : (i < j)%nat -> point i < point j.
Proof.
  intros Hij. unfold point, grid_point.
  destruct curv as [|p|p]; try lia.
  assert (Hd : 0 < inject_Z (Z.of_nat num - 1)).
  { change 0 with (inject_Z 0). rewrite <- Zlt_Qlt. lia. }
  assert (Hi : 0 <= inject_Z (Z.of_nat i) / inject_Z (Z.of_nat num - 1)).
  { apply Qle_shift_div_l; [exact Hd|]. rewrite Qmult_0_l.
    change 0 with (inject_Z 0). rewrite <- Zle_Qle. lia. }
  assert (Hlt : inject_Z (Z.of_nat i) / inject_Z (Z.of_nat num - 1)
                < inject_Z (Z.of_nat j) / inject_Z (Z.of_nat num - 1)).
  { apply Qmult_lt_compat_r; [now apply Qinv_lt_0_compat|].
    rewrite <- Zlt_Qlt. lia. }
  pose proof (Qpower_positive_lt_compat _ _ p Hi Hlt) as Hp.
  nra.
Qed.

(** Every point of the grid is the value of the power curve at its index,
    the two end points included. *)
Lemma make_grid_nth_error (grd : list Q) (i : nat) (x : Q) :
  make_grid min_val max_val num curv = Ok grd ->
  nth_error grd i = Some x -> x == point i /\ (i < num)%nat.
Proof.
  rewrite make_grid_closed_form by exact Hnum. intros [= <-].
  destruct i as [|i]; simpl.
  - intros [= <-]. split; [symmetry; apply grid_point_first | lia].
  - destruct (Nat.lt_ge_cases i (num - 2)) as [Hi|Hi].
    + rewrite nth_error_app1 by (rewrite length_map, length_seq; exact Hi).
      rewrite nth_error_map, nth_error_seq.
      destruct (Nat.ltb_spec i (num - 2)); [|lia]. simpl.
      intros [= <-]. split; [reflexivity | lia].
    + rewrite nth_error_app2 by (rewrite length_map, length_seq; exact Hi).
      rewrite length_map, length_seq.
      destruct (i - (num - 2))%nat as [|k] eqn:E; simpl.
      * intros [= <-]. replace (S i) with (num - 1)%nat by lia.
        split; [symmetry; apply grid_point_last | lia].
      * destruct k; discriminate.
Qed.

End GridFacts.

(** In exact arithmetic and for an integer curvature [curv > 0], the grid
    of [min_val < max_val] and [num >= 2] has exactly [num] points, is
    strictly increasing, starts at [min_val], ends at [max_val] and has
    [min_val + (max_val - min_val) * (i / (num - 1)) ^ curv] at every interior
    index [i].  The binary64 grid is treated with the binary64 embedding. *)
Theorem make_grid_spec (min_val max_val : Q) (num : nat) (curv : Z) :
  min_val < max_val -> (2 <= num)%nat -> (0 < curv)%Z ->
  exists grd,
    make_grid min_val max_val num curv = Ok grd /\
    length grd = num /\
    StronglySorted Qlt grd /\
    nth_error grd 0 = Some min_val /\
    nth_error grd (num - 1) = Some max_val /\
    forall i, (0 < i < num - 1)%nat ->
      nth_error grd i =
      Some (min_val + (max_val - min_val)
            * (inject_Z (Z.of_nat i) / inject_Z (Z.of_nat num - 1)) ^ curv).
Proof.
  intros Hmm Hn Hc.
  pose proof (make_grid_closed_form min_val max_val num curv Hn) as Hg.
  eexists. split; [exact Hg|].
  split; [|split; [|split; [|split]]].
  - simpl. rewrite length_app, length_map, length_seq. simpl. lia.
  - apply StronglySorted_nth_error. intros i j x y Hij Hx Hy.
    destruct (make_grid_nth_error _ _ _ _ Hn Hc _ _ _ Hg Hx) as [Ex _].
    destruct (make_grid_nth_error _ _ _ _ Hn Hc _ _ _ Hg Hy) as [Ey _].
    rewrite Ex, Ey. now apply grid_point_lt.
  - reflexivity.
  - destruct num as [|[|n]]; try lia. simpl.
    rewrite nth_error_app2 by (rewrite length_map, length_seq; lia).
    rewrite length_map, length_seq.
    replace (n - (n - 0))%nat with 0%nat by lia. reflexivity.
  - intros i Hi. destruct i as [|i]; [lia|]. simpl.
    rewrite nth_error_app1 by (rewrite length_map, length_seq; lia).
    rewrite nth_error_map, nth_error_seq.
    destruct (Nat.ltb_spec i (num - 2)); [|lia]. reflexivity.
Qed.

Lemma make_grid_spec_witness :
  exists grd,
    make_grid 0 100 5 3 = Ok grd /\
    length grd = 5%nat /\
    StronglySorted Qlt grd /\
    nth_error grd 0 = Some 0 /\
    nth_error grd (5 - 1) = Some 100 /\
    forall i, (0 < i < 5 - 1)%nat ->
      nth_error grd i =
      Some (0 + (100 - 0)
            * (inject_Z (Z.of_nat i) / inject_Z (Z.of_nat 5 - 1)) ^ 3).
Proof.
  apply (make_grid_spec 0 100 5 3); [reflexivity | lia | lia].
Defined.

(** ** The Euler equation residual *)

Lemma for_each_total {I S : Type} (xs : list I) (body : I -> S -> result S) :
  (forall i s, In i xs -> exists s', body i s = Ok s') ->
  forall s, exists s', for_each xs s body = Ok s'.
Proof.
  induction xs as [|x xs IH]; intros H s; simpl.
  - eauto.
  - destruct (H x s (or_introl eq_refl)) as [s1 ->]. simpl.
    apply IH. intros i s2 Hi. apply H. now right.
Qed.

Lemma get_nat (a : list Q) (i : nat) (v : Q) :
  nth_error a i = Some v -> get a (Z.of_nat i) = Ok v.
Proof.
  intros H. unfold get. rewrite py_index_nat.
  - simpl. now rewrite H.
  - apply nth_error_Some. congruence.
Qed.

Lemma get_first (a : list Q) (v : Q) :
  nth_error a 0 = Some v -> get a 0 = Ok v.
Proof. exact (get_nat a 0 v). Qed.

Lemma get_row_nat (m : list (list Q)) (i : nat) (row : list Q) :
  nth_error m i = Some row -> get_row m (Z.of_nat i) = Ok row.
Proof.
  intros H. unfold get_row. rewrite py_index_nat.
  - simpl. now rewrite H.
  - apply nth_error_Some. congruence.
Qed.

Lemma get2_nat (m : list (list Q)) (i j : nat) (row : list Q) (v : Q) :
  nth_error m i = Some row -> nth_error row j = Some v ->
  get2 m (Z.of_nat i) (Z.of_nat j) = Ok v.
Proof.
  intros Hi Hj. unfold get2. rewrite (get_row_nat _ _ _ Hi). simpl.
  now apply get_nat.
Qed.

Lemma nth_error_lt {A : Type} (l : list A) (i : nat) :
  (i < length l)%nat -> exists v, nth_error l i = Some v.
Proof.
  intros H. destruct (nth_error l i) eqn:E; [eauto|].
  apply nth_error_None in E. lia.
Qed.

Lemma eps_pos : 0 < eps.
Proof. reflexivity. Qed.

Lemma fmax_ge_r (x y : Q) : y <= fmax x y.
Proof. unfold fmax. destruct (Qlt_le_dec x y); lra. Qed.

Lemma fmax_ge_l (x y : Q) : x <= fmax x y.
Proof. unfold fmax. destruct (Qlt_le_dec x y); lra. Qed.

(** The clamp keeps the base of the power positive, so the marginal utility
    is a finite real for every consumption level. *)
Lemma u_prime_ok (c : Q) (sigma : Z) :
  u_prime c sigma = Ok (fmax c eps ^ (- sigma)).
Proof.
  unfold u_prime, fpow.
  destruct (Qeq_bool (fmax c eps) 0) eqn:E; [|reflexivity].
  apply Qeq_bool_eq in E.
  pose proof (fmax_ge_r c eps). pose proof eps_pos. lra.
Qed.

Lemma interp_total (x y : list Q) (v : Q) :
  length x = length y -> (0 < length x)%nat -> exists s, interp x y v = Ok s.
Proof.
  intros Hl Hx. unfold interp. rewrite Hl, Nat.eqb_refl. simpl.
  destruct x as [|x0 xs]; [simpl in Hx; lia|].
  destruct y as [|y0 ys]; [discriminate|].
  destruct (Qlt_le_dec v x0); eauto.
Qed.

Lemma well_shaped_rows (p : params_eer) (i : nat) :
  well_shaped p = true -> (i < length (eer_grid_z p))%nat ->
  exists row, nth_error (eer_pol_sav_old p) i = Some row
              /\ length row = length (eer_grid_a p).
Proof.
  unfold well_shaped. intros H Hi.
  apply andb_prop in H as [H _]. apply andb_prop in H as [H Hrows].
  apply andb_prop in H as [_ Hlen]. apply Nat.leb_le in Hlen.
  destruct (nth_error_lt (eer_pol_sav_old p) i ltac:(lia)) as [row Hrow].
  exists row. split; [exact Hrow|].
  rewrite forallb_forall in Hrows. apply Nat.eqb_eq, Hrows.
  apply nth_error_In with (n := i). rewrite nth_error_firstn.
  destruct (Nat.ltb_spec i (length (eer_grid_z p))); [exact Hrow | lia].
Qed.

Lemma marg_u_step_total (a_plus : Q) (p : params_eer) (i_zz : nat) (avg : Q) :
  well_shaped p = true -> (i_zz < length (eer_grid_z p))%nat ->
  exists avg', marg_u_step a_plus p i_zz avg = Ok avg'.
Proof.
  intros Hp Hi. unfold marg_u_step.
  destruct (nth_error_lt _ _ Hi) as [z Hz]. rewrite (get_nat _ _ _ Hz). simpl.
  destruct (well_shaped_rows p i_zz Hp Hi) as [row [Hrow Hlen]].
  rewrite (get_row_nat _ _ _ Hrow). simpl.
  unfold well_shaped in Hp.
  apply andb_prop in Hp as [Hp Hpi]. apply andb_prop in Hp as [Hp _].
  apply andb_prop in Hp as [Hna _]. apply Nat.ltb_lt in Hna.
  destruct (interp_total (eer_grid_a p) row a_plus (eq_sym Hlen) Hna) as [s ->].
  simpl. rewrite u_prime_ok. simpl.
  destruct (nth_error (eer_pi p) (eer_i_z p)) as [pirow|] eqn:Epi; [|discriminate].
  apply Nat.leb_le in Hpi.
  destruct (nth_error_lt pirow i_zz ltac:(lia)) as [wgt Hw].
  rewrite (get2_nat _ _ _ _ _ Epi Hw). simpl. eauto.
Qed.

(** In exact arithmetic and for an integer [sigma], the Euler equation
    residual of a well-shaped tuple is a rational for every candidate savings
    [a_plus]: marginal utility is always evaluated at a base [>= eps > 0].
    The binary64 residual is treated with the binary64 embedding. *)
Theorem euler_eq_residual_total (a_plus : Q) (p : params_eer) :
  well_shaped p = true -> exists v, euler_eq_residual a_plus p = Ok v.
Proof.
  intros Hp. unfold euler_eq_residual.
  destruct (for_each_total (range 0 (length (eer_grid_z p)))
              (marg_u_step a_plus p)) with (s := 0) as [avg ->].
  - intros i s Hi. apply marg_u_step_total; [exact Hp|].
    unfold range in Hi. apply in_seq in Hi. lia.
  - simpl. rewrite u_prime_ok. simpl. eauto.
Qed.

Lemma euler_eq_residual_total_witness :
  exists v,
    euler_eq_residual 5
      (ParamsEer 1 (1 # 2) [[0; 0]; [0; 0]] 0 (1 # 50) 1 (24 # 25) 2
                 [[3 # 4; 1 # 4]; [1 # 4; 3 # 4]] [1 # 2; 3 # 2] [0; 100])
    = Ok v.
Proof.
  apply (euler_eq_residual_total 5
           (ParamsEer 1 (1 # 2) [[0; 0]; [0; 0]] 0 (1 # 50) 1 (24 # 25) 2
                      [[3 # 4; 1 # 4]; [1 # 4; 3 # 4]] [1 # 2; 3 # 2] [0; 100])).
  reflexivity.
Defined.

(** ** The household solver *)

Lemma py_index_of_nat (len i k : nat) :
  py_index len (Z.of_nat i) = Ok k -> k = i /\ (i < len)%nat.
Proof.
  unfold py_index.
  destruct (Z.leb_spec 0 (Z.of_nat i)); [|lia].
  destruct (Z.ltb_spec (Z.of_nat i) (Z.of_nat len)); [|discriminate].
  intros [= <-]. lia.
Qed.

Lemma entry_set_nth (m : list (list Q)) (i : nat) (row : list Q) (i' j' : nat) :
  (i < length m)%nat ->
  entry (set_nth m i row) i' j' =
  if Nat.eqb i' i then nth_error row j' else entry m i' j'.
Proof.
  intros Hi. unfold entry. rewrite nth_error_set_nth.
  destruct (Nat.eqb i' i); [|reflexivity].
  destruct (Nat.ltb_spec i (length m)); [reflexivity | lia].
Qed.

Lemma store2_entry (m m' : list (list Q)) (i j : nat) (v : Q) :
  store2 m (Z.of_nat i) (Z.of_nat j) v = Ok m' ->
  forall i' j',
    entry m' i' j' =
    if Nat.eqb i' i && Nat.eqb j' j then Some v else entry m i' j'.
Proof.
  unfold store2. intros H.
  apply bind_ok in H as [k [Hk H]].
  apply py_index_of_nat in Hk as [-> Hi].
  destruct (nth_error m i) as [row|] eqn:Erow; [|discriminate].
  apply bind_ok in H as [row' [Hrow' [= <-]]].
  unfold store in Hrow'. apply bind_ok in Hrow' as [k [Hk [= <-]]].
  apply py_index_of_nat in Hk as [-> Hj].
  intros i' j'. rewrite entry_set_nth by exact Hi.
  destruct (Nat.eqb_spec i' i) as [->|Hne]; simpl; [|reflexivity].
  rewrite nth_error_set_nth. unfold entry. rewrite Erow.
  destruct (Nat.eqb j' j); [|reflexivity].
  destruct (Nat.ltb_spec j (length row)); [reflexivity | lia].
Qed.

(** A loop that stores [f i_a a] in row [i_z] for the points of a grid
    leaves the values of [f] in that row and touches nothing else. *)
Lemma for_each_store_cells (f : nat -> Q -> result Q) (i_z : nat) (xs : list Q) :
  forall (k : nat) (m m' : list (list Q)),
    for_each (combine (seq k (length xs)) xs) m
      (fun ia m => let '(i_a, a) := ia in
                   v <- f i_a a ;; store2 m (Z.of_nat i_z) (Z.of_nat i_a) v)
    = Ok m' ->
    (forall j a, nth_error xs j = Some a ->
       exists v, f (k + j)%nat a = Ok v /\ entry m' i_z (k + j) = Some v)
    /\ (forall i' j', i' <> i_z \/ (j' < k)%nat -> entry m' i' j' = entry m i' j').
Proof.
  induction xs as [|x xs IH]; intros k m m' H; simpl in H.
  - injection H as <-. split; [intros [|j] a; discriminate | reflexivity].
  - apply bind_ok in H as [m1 [H1 H]].
    apply bind_ok in H1 as [v [Hv Hst]].
    destruct (IH (S k) m1 m' H) as [IHcells IHrest].
    pose proof (store2_entry _ _ _ _ _ Hst) as Hm1.
    split.
    + intros [|j] a Ha; simpl in Ha.
      * injection Ha as <-. exists v. rewrite Nat.add_0_r. split; [exact Hv|].
        rewrite IHrest by (right; lia). rewrite Hm1, !Nat.eqb_refl. reflexivity.
      * replace (k + S j)%nat with (S k + j)%nat by lia. now apply IHcells.
    + intros i' j' Hij. rewrite IHrest by (destruct Hij; [now left | right; lia]).
      rewrite Hm1.
      destruct (Nat.eqb_spec i' i_z) as [->|]; [|reflexivity].
      destruct (Nat.eqb_spec j' k) as [->|]; [|reflexivity].
      destruct Hij; [congruence | lia].
Qed.

Section HouseholdFacts.

Variable brent_iterations :
  (Q -> result Q) -> Q -> Q -> Q -> Q -> result Q.
Variables (p : params_pfi) (r w : Q).

Let point := solve_point brent_iterations p r w.

Lemma hh_row_cells (old : list (list Q)) (i_z : nat) (z : Q)
    (ps pc ps' pc' : list (list Q)) :
  hh_row brent_iterations p r w old (i_z, z) (ps, pc) = Ok (ps', pc') ->
  (forall i_a a, nth_error (pfi_grid_a p) i_a = Some a ->
     exists v, point old i_z z a = Ok v /\ entry ps' i_z i_a = Some v)
  /\ (forall i' j', i' <> i_z -> entry ps' i' j' = entry ps i' j').
Proof.
  unfold hh_row, enumerate. intros H.
  apply bind_ok in H as [ps1 [Hloop H]].
  apply bind_ok in H as [z_i [_ H]].
  apply bind_ok in H as [sav_row [_ H]].
  apply bind_ok in H as [cons_row [_ H]].
  apply bind_ok in H as [pc1 [_ H]].
  injection H as <- <-.
  destruct (for_each_store_cells (fun _ a => point old i_z z a) i_z
              (pfi_grid_a p) 0 ps ps1 Hloop) as [Hcells Hrest].
  split.
  - intros i_a a Ha. exact (Hcells i_a a Ha).
  - intros i' j' Hne. apply Hrest. now left.
Qed.

Lemma hh_rows_cells (old : list (list Q)) (zs : list Q) :
  forall (k : nat) (pol pol' : list (list Q) * list (list Q)),
    for_each (combine (seq k (length zs)) zs) pol
      (hh_row brent_iterations p r w old) = Ok pol' ->
    (forall j z, nth_error zs j = Some z ->
       forall i_a a, nth_error (pfi_grid_a p) i_a = Some a ->
         exists v, point old (k + j) z a = Ok v
                   /\ entry (fst pol') (k + j) i_a = Some v)
    /\ (forall i' j', (i' < k)%nat -> entry (fst pol') i' j' = entry (fst pol) i' j').
Proof.
  induction zs as [|z0 zs IH]; intros k pol pol' H; simpl in H.
  - injection H as <-. split; [intros [|j] z; discriminate | reflexivity].
  - apply bind_ok in H as [[ps1 pc1] [H1 H]]. destruct pol as [ps pc].
    destruct (hh_row_cells _ _ _ _ _ _ _ H1) as [Hcells Hrest].
    destruct (IH (S k) (ps1, pc1) pol' H) as [IHcells IHrest].
    split.
    + intros [|j] z Hz i_a a Ha; simpl in Hz.
      * injection Hz as <-. rewrite Nat.add_0_r.
        destruct (Hcells i_a a Ha) as [v [Hv Hent]].
        exists v. split; [exact Hv|]. rewrite IHrest by lia. exact Hent.
      * replace (k + S j)%nat with (S k + j)%nat by lia. now apply IHcells.
    + intros i' j' Hi. rewrite IHrest by lia. simpl. apply Hrest. lia.
Qed.

(** After a sweep every cell of the savings policy holds what [solve_point]
    returns there. *)
Lemma hh_sweep_cells (old : list (list Q))
    (pol : list (list Q) * list (list Q)) (ps' pc' : list (list Q)) :
  hh_sweep brent_iterations p r w old pol = Ok (ps', pc') ->
  forall i_z z i_a a,
    nth_error (pfi_grid_z p) i_z = Some z ->
    nth_error (pfi_grid_a p) i_a = Some a ->
    exists v, point old i_z z a = Ok v /\ entry ps' i_z i_a = Some v.
Proof.
  unfold hh_sweep, enumerate. intros H i_z z i_a a Hz Ha.
  destruct (hh_rows_cells old (pfi_grid_z p) 0 pol (ps', pc') H) as [Hcells _].
  exact (Hcells i_z z Hz i_a a Ha).
Qed.

End HouseholdFacts.

Lemma for_each_break_last {I S : Type} (body : I -> S -> result (flow S))
    (xs : list I) :
  xs <> [] ->
  forall s s', for_each_break xs s body = Ok s' ->
    exists x s0 f, In x xs /\ body x s0 = Ok f /\ s' = flow_state f.
Proof.
  induction xs as [|x xs IH]; intros Hne s s' H; [congruence|]. simpl in H.
  apply bind_ok in H as [f [Hf H]]. destruct f as [s1|s1].
  - destruct xs as [|y xs].
    + simpl in H. injection H as <-. exists x, s, (Continue s1). simpl. auto.
    + destruct (IH ltac:(discriminate) s1 s' H) as [x' [s0 [f' [Hin [Hb ->]]]]].
      exists x', s0, f'. split; [now right | auto].
  - injection H as <-. exists x, s, (Break s1). simpl. auto.
Qed.

(** When the loop runs at least once, what [solve_hh] returns is the outcome
    of a sweep of its last [pol_sav_old]. *)
Lemma solve_hh_last_sweep brent_iterations (p : params_pfi) (r w : Q)
    (pol_sav pol_cons : list (list Q)) (it : nat) :
  (0 < pfi_maxit p)%nat ->
  solve_hh brent_iterations p r w = Ok (pol_sav, pol_cons, it) ->
  exists pol_sav_old pol0,
    hh_sweep brent_iterations p r w pol_sav_old pol0 = Ok (pol_sav, pol_cons).
Proof.
  unfold solve_hh. intros Hmax H. apply bind_ok in H as [st [Hloop H]].
  injection H as <- <- <-.
  apply for_each_break_last in Hloop as [x [s0 [f [_ [Hb ->]]]]].
  2:{ unfold range. destruct (pfi_maxit p); [lia | discriminate]. }
  unfold hh_iteration in Hb.
  apply bind_ok in Hb as [[ps pc] [Hsweep Hb]].
  apply bind_ok in Hb as [dist [_ Hb]].
  exists (hh_pol_sav_old s0), (hh_pol_sav s0, hh_pol_cons s0).
  destruct (Qlt_le_dec dist (pfi_tol p)); injection Hb as <-; exact Hsweep.
Qed.

(** Without a round the tables are the initial zeros and [it] is 0. *)
Lemma solve_hh_no_round brent_iterations (p : params_pfi) (r w : Q) :
  pfi_maxit p = 0%nat ->
  solve_hh brent_iterations p r w
  = Ok (zeros2 (length (pfi_grid_z p)) (length (pfi_grid_a p)),
        zeros2 (length (pfi_grid_z p)) (length (pfi_grid_a p)), 0%nat).
Proof. intros H. unfold solve_hh. rewrite H. reflexivity. Qed.

Lemma sign_pos (x : Q) : 0 < x -> sign x = 1.
Proof. intros H. unfold sign. destruct (Qlt_le_dec 0 x); [reflexivity | lra]. Qed.

Lemma sign_zero (x : Q) : x == 0 -> sign x = 0.
Proof.
  intros H. unfold sign.
  destruct (Qlt_le_dec 0 x); [lra|]. destruct (Qlt_le_dec x 0); [lra | reflexivity].
Qed.

Section SolvePointFacts.

Variable brent_iterations :
  (Q -> result Q) -> Q -> Q -> Q -> Q -> result Q.
Variables (p : params_pfi) (r w : Q).
Variables (pol_sav_old : list (list Q)) (i_z : nat) (z a lb : Q).

Let params := params_eer_at p r w pol_sav_old i_z z a.
Let ub := (1 + r) * a + w * z.

Hypothesis Hlb : nth_error (pfi_grid_a p) 0 = Some lb.

(** A strictly positive residual at the lower bound: the corner branch. *)
Lemma solve_point_positive (res_lb : Q) :
  euler_eq_residual lb params = Ok res_lb -> 0 < res_lb ->
  solve_point brent_iterations p r w pol_sav_old i_z z a = Ok lb.
Proof.
  intros Hres Hpos. unfold solve_point.
  rewrite (get_first _ _ Hlb). simpl bind. fold params. rewrite Hres. simpl bind.
  rewrite (sign_pos _ Hpos). reflexivity.
Qed.

(** A residual that is exactly zero at the lower bound: the point goes to
    the root finder, whose end-point test decides. *)
Lemma solve_point_zero (res_lb res_ub : Q) :
  euler_eq_residual lb params = Ok res_lb -> res_lb == 0 ->
  euler_eq_residual ub params = Ok res_ub ->
  solve_point brent_iterations p r w pol_sav_old i_z z a
  = Ok (if Qeq_bool res_ub 0 then ub else lb).
Proof.
  intros Hres Hzero Hub. unfold solve_point.
  rewrite (get_first _ _ Hlb). simpl bind. fold params. rewrite Hres. simpl bind.
  rewrite (sign_zero _ Hzero). simpl Qeq_bool. cbv iota.
  fold ub. rewrite Hub. simpl bind.
  replace (Qeq_bool (0 * sign res_ub) 1) with false.
  2:{ symmetry. apply not_true_is_false. intros C. apply Qeq_bool_eq in C. lra. }
  unfold brentq. rewrite Hres, Hub. simpl bind. unfold bisect_interval.
  destruct (Qlt_le_dec 0 (res_lb * res_ub)) as [C|_].
  { rewrite Hzero in C. lra. }
  rewrite (Qeq_eq_bool _ _ Hzero).
  destruct (Qeq_bool res_ub 0); reflexivity.
Qed.

End SolvePointFacts.

(** *** The residual at the upper bound *)

Lemma for_each_app {I S : Type} (xs ys : list I) (s : S)
    (body : I -> S -> result S) :
  for_each (xs ++ ys) s body = (s' <- for_each xs s body ;; for_each ys s' body).
Proof.
  revert s; induction xs as [|x xs IH]; intros s; simpl; [reflexivity|].
  destruct (body x s) as [s1|e]; simpl; [apply IH | reflexivity].
Qed.

Lemma sumQ_firstn_S (l : list Q) (k : nat) (v : Q) :
  nth_error l k = Some v -> sumQ (firstn (S k) l) == sumQ (firstn k l) + v.
Proof.
  revert k; induction l as [|x l IH]; intros [|k] H; simpl in H; try discriminate.
  - injection H as <-. simpl. ring.
  - change (firstn (S (S k)) (x :: l)) with (x :: firstn (S k) l).
    change (firstn (S k) (x :: l)) with (x :: firstn k l).
    simpl sumQ. rewrite (IH k H). ring.
Qed.

Lemma get_nat_inv (a : list Q) (i : nat) (v : Q) :
  get a (Z.of_nat i) = Ok v -> nth_error a i = Some v.
Proof.
  unfold get. intros H. apply bind_ok in H as [k [Hk H]].
  apply py_index_of_nat in Hk as [-> _].
  destruct (nth_error a i); [now injection H as <- | discriminate].
Qed.

Lemma get2_nat_inv (m : list (list Q)) (i j : nat) (v : Q) :
  get2 m (Z.of_nat i) (Z.of_nat j) = Ok v ->
  exists row, nth_error m i = Some row /\ nth_error row j = Some v.
Proof.
  unfold get2, get_row. intros H. apply bind_ok in H as [row [Hrow H]].
  apply bind_ok in Hrow as [k [Hk Hrow]].
  apply py_index_of_nat in Hk as [-> _].
  destruct (nth_error m i) as [row'|]; [|discriminate].
  injection Hrow as ->. exists row. split; [reflexivity | now apply get_nat_inv].
Qed.

Lemma Qpower_pos_le_compat (a b : Q) (n : positive) :
  0 <= a -> a <= b -> a ^ Z.pos n <= b ^ Z.pos n.
Proof.
  intros Ha Hab. simpl.
  induction n as [|n IH] using Pos.peano_ind.
  - simpl. exact Hab.
  - rewrite <- Pos.add_1_r. rewrite !Qpower_plus_positive. simpl.
    assert (H0 : 0 <= Qpower_positive a n) by now apply Qpower_pos_positive.
    nra.
Qed.

(** Marginal utility is positive and, for a risk aversion [sigma >= 0],
    largest at the clamp. *)
Lemma marginal_utility_bounds (b : Q) (sigma : Z) :
  eps <= b -> (0 <= sigma)%Z ->
  0 < b ^ (- sigma) /\ b ^ (- sigma) <= eps ^ (- sigma).
Proof.
  intros Hb Hs. pose proof eps_pos as He.
  split; [apply Qpower_0_lt; lra|].
  destruct sigma as [|n|n]; [simpl; lra | | lia].
  change (- Z.pos n)%Z with (Z.neg n).
  change (b ^ Z.neg n) with (/ (b ^ Z.pos n)).
  change (eps ^ Z.neg n) with (/ (eps ^ Z.pos n)).
  assert (H1 : 0 < eps ^ Z.pos n) by (apply Qpower_0_lt; exact He).
  assert (H2 : eps ^ Z.pos n <= b ^ Z.pos n)
    by (apply Qpower_pos_le_compat; lra).
  apply Qle_shift_inv_l; [lra|].
  assert (H3 : / (b ^ Z.pos n) * (b ^ Z.pos n) == 1) by (field; lra).
  assert (H4 : 0 < / (b ^ Z.pos n)) by (apply Qinv_lt_0_compat; lra).
  nra.
Qed.

Section ResidualBounds.

Variables (a_plus : Q) (p : params_eer) (pirow : list Q).

Let top := eps ^ (- eer_sigma p).

Hypothesis Hsigma : (0 <= eer_sigma p)%Z.
Hypothesis Hpirow : nth_error (eer_pi p) (eer_i_z p) = Some pirow.
Hypothesis Hweights : Forall (fun v => 0 <= v) pirow.

Lemma marg_u_step_bound (k : nat) (avg avg' : Q) :
  marg_u_step a_plus p k avg = Ok avg' ->
  exists weight u,
    nth_error pirow k = Some weight
    /\ 0 < u /\ u <= top /\ avg' = avg + weight * u.
Proof.
  unfold marg_u_step. intros H.
  apply bind_ok in H as [z_plus [_ H]].
  apply bind_ok in H as [row [_ H]].
  apply bind_ok in H as [sav [_ H]].
  rewrite u_prime_ok in H. cbn [bind] in H.
  apply bind_ok in H as [weight [Hw H]]. injection H as <-.
  apply get2_nat_inv in Hw as [row' [Hrow' Hw]].
  rewrite Hpirow in Hrow'. injection Hrow' as <-.
  eexists weight, _. split; [exact Hw|].
  destruct (marginal_utility_bounds
              (fmax ((1 + eer_r p) * a_plus + eer_w p * z_plus - sav) eps)
              (eer_sigma p) (fmax_ge_r _ _) Hsigma) as [Hpos Hle].
  repeat split; [exact Hpos | exact Hle].
Qed.

(** The expected marginal utility is at most the marginal utility at the
    clamp times the probability mass of the row. *)
Lemma marg_u_loop_bound (k : nat) (avg : Q) :
  for_each (seq 0 k) 0 (marg_u_step a_plus p) = Ok avg ->
  0 <= avg /\ avg <= top * sumQ (firstn k pirow).
Proof.
  revert avg. induction k as [|k IH]; intros avg H.
  - simpl in H. injection H as <-. simpl. lra.
  - rewrite seq_S, for_each_app in H.
    apply bind_ok in H as [avg0 [H0 H]]. cbn [plus for_each] in H.
    apply bind_ok in H as [avg1 [H1 H]]. injection H as <-.
    destruct (IH avg0 H0) as [Hge Hle].
    destruct (marg_u_step_bound k avg0 avg1 H1) as [wgt [u [Hw [Hu [Hut ->]]]]].
    rewrite (sumQ_firstn_S _ _ _ Hw).
    assert (Hwge : 0 <= wgt).
    { rewrite Forall_forall in Hweights. apply Hweights.
      now apply nth_error_In with (n := k). }
    split; nra.
Qed.

End ResidualBounds.

Section UpperBound.

Variable brent_iterations :
  (Q -> result Q) -> Q -> Q -> Q -> Q -> result Q.
Variables (p : params_pfi) (r w : Q).
Variables (pol_sav_old : list (list Q)) (i_z : nat) (z a : Q).

Let params := params_eer_at p r w pol_sav_old i_z z a.
Let ub := (1 + r) * a + w * z.

Hypothesis Hsigma : (0 <= pfi_sigma p)%Z.
Hypothesis Hstable : (1 + r) * pfi_beta p < 1.
Hypothesis Hpi : row_stochastic (length (pfi_grid_z p)) (pfi_pi p).

(** At the upper bound consumption is zero and clamped, so under the
    stability condition [(1 + r) * beta < 1] the residual is strictly
    positive there. *)
Lemma residual_upper_bound_positive (res_ub : Q) :
  euler_eq_residual ub params = Ok res_ub -> 0 < res_ub.
Proof.
  unfold euler_eq_residual. intros H.
  apply bind_ok in H as [avg [Havg H]].
  rewrite u_prime_ok in H. cbn [bind] in H. injection H as <-.
  unfold range in Havg. rewrite Nat.sub_0_r in Havg.
  cbn [params params_eer_at eer_grid_z eer_r eer_w eer_a eer_z eer_beta
       eer_sigma] in Havg |- *.
  destruct Hpi as [Hlen Hrows]. rewrite Forall_forall in Hrows.
  destruct (pfi_grid_z p) as [|z0 zs] eqn:Egz.
  { simpl in Havg. injection Havg as <-.
    pose proof (Qpower_0_lt (fmax ((1 + r) * a + w * z - ub) eps)
                  (- pfi_sigma p)) as Hpos.
    pose proof (fmax_ge_r ((1 + r) * a + w * z - ub) eps).
    pose proof eps_pos. assert (0 < fmax ((1 + r) * a + w * z - ub) eps) by lra.
    specialize (Hpos H1). lra. }
  destruct (nth_error (pfi_pi p) i_z) as [pirow|] eqn:Epi.
  2:{ exfalso. cbn [length seq for_each] in Havg.
      apply bind_ok in Havg as [avg1 [Hstep _]].
      unfold marg_u_step in Hstep.
      apply bind_ok in Hstep as [z_plus [_ Hstep]].
      apply bind_ok in Hstep as [row [_ Hstep]].
      apply bind_ok in Hstep as [sav [_ Hstep]].
      rewrite u_prime_ok in Hstep. cbn [bind] in Hstep.
      apply bind_ok in Hstep as [weight [Hw _]].
      cbn [eer_pi eer_i_z params params_eer_at] in Hw.
      apply get2_nat_inv in Hw as [row' [Hrow' _]]. congruence. }
  destruct (Hrows pirow (nth_error_In _ _ Epi)) as [Hplen [Hpsum Hpge]].
  destruct (marg_u_loop_bound ub params pirow Hsigma Epi Hpge _ _ Havg)
    as [Hge Hle].
  rewrite <- Hplen, firstn_all, Hpsum in Hle.
  cbn [params params_eer_at eer_sigma] in Hle.
  assert (Hc : fmax ((1 + r) * a + w * z - ub) eps = eps).
  { unfold fmax. destruct (Qlt_le_dec _ eps) as [_|C]; [reflexivity|].
    unfold ub in C. pose proof eps_pos. lra. }
  rewrite Hc.
  assert (Htop : 0 < eps ^ (- pfi_sigma p)) by (apply Qpower_0_lt; apply eps_pos).
  set (top := eps ^ (- pfi_sigma p)) in *.
  set (k := (1 + r) * pfi_beta p) in *.
  destruct (Qlt_le_dec k 0) as [Hk|Hk].
  - assert (0 <= (- k) * avg) by (apply Qmult_le_0_compat; lra). lra.
  - assert (avg * k <= top * k) by (apply Qmult_le_compat_r; lra).
    assert (k * top < 1 * top) by (apply Qmult_lt_compat_r; lra). lra.
Qed.

(** A non-negative residual at the lower bound gives the lower bound: the
    corner branch when it is positive, the end-point test of the root finder
    when it is zero. *)
Lemma solve_point_nonnegative (lb res_lb v : Q) :
  nth_error (pfi_grid_a p) 0 = Some lb ->
  euler_eq_residual lb params = Ok res_lb -> 0 <= res_lb ->
  solve_point brent_iterations p r w pol_sav_old i_z z a = Ok v ->
  v = lb.
Proof.
  intros Hfirst Hres Hge Hv.
  destruct (Qlt_le_dec 0 res_lb) as [Hpos|Hle].
  - rewrite (solve_point_positive brent_iterations p r w pol_sav_old i_z z a lb
               Hfirst res_lb Hres Hpos) in Hv.
    now injection Hv as <-.
  - assert (Hzero : res_lb == 0) by lra.
    destruct (euler_eq_residual ub params) as [res_ub|e] eqn:Hub.
    + pose proof (residual_upper_bound_positive res_ub Hub) as Hpos.
      rewrite (solve_point_zero brent_iterations p r w pol_sav_old i_z z a lb
                 Hfirst res_lb res_ub Hres Hzero Hub) in Hv.
      destruct (Qeq_bool res_ub 0) eqn:E.
      * apply Qeq_bool_eq in E. lra.
      * now injection Hv as <-.
    + exfalso. unfold solve_point in Hv.
      rewrite (get_first _ _ Hfirst) in Hv. cbn [bind] in Hv.
      fold params in Hv. rewrite Hres in Hv. cbn [bind] in Hv.
      rewrite (sign_zero _ Hzero) in Hv. simpl Qeq_bool in Hv. cbv iota in Hv.
      fold ub in Hv. rewrite Hub in Hv. discriminate.
Qed.

End UpperBound.



(** The household of the witness meets both cases at the lower bound 0 in
    its first sweep: the residual is 3/4 at the grid point [a = 0] and
    exactly 0 at the grid point [a = 1], and the policy is 0 at both. *)
Example solve_hh_quarter_cases :
  solve_hh bisect_iterations pfi_quarter 0 1 = Ok ([[0; 0]], [[1; 2]], 0%nat)
  /\ euler_eq_residual 0 (params_eer_at pfi_quarter 0 1 (zeros2 1 2) 0 1 0)
     = Ok (3 # 4)
  /\ (exists res, euler_eq_residual 0
                    (params_eer_at pfi_quarter 0 1 (zeros2 1 2) 0 1 1) = Ok res
                  /\ res == 0).
Proof.
  split; [vm_compute; reflexivity|].
  split; [vm_compute; reflexivity|].
  eexists. split; [vm_compute; reflexivity | reflexivity].
Qed.

(** The stability condition cannot be dropped.  For the household
    [pfi_below_limit], where [(1 + r) * beta = 1] and the cash on hand at the
    first grid point lies below the borrowing limit, the residual is zero at
    both bounds and the root finder returns the upper bound [-3/2]. *)
Lemma solve_hh_zero_residual_not_corner :
  exists pol_sav pol_cons,
    solve_hh bisect_iterations pfi_below_limit 1 (1 # 2)
    = Ok (pol_sav, pol_cons, 0%nat)
    /\ hh_sweep bisect_iterations pfi_below_limit 1 (1 # 2) (zeros2 1 2)
         (zeros2 1 2, zeros2 1 2) = Ok (pol_sav, pol_cons)
    /\ nth_error (pfi_grid_a pfi_below_limit) 0 = Some (-1)
    /\ (exists res_lb,
          euler_eq_residual (-1)
            (params_eer_at pfi_below_limit 1 (1 # 2) (zeros2 1 2) 0 1 (-1))
          = Ok res_lb /\ 0 <= res_lb)
    /\ entry pol_sav 0 0 = Some (-3 # 2)
    /\ ~ (-3 # 2) == -1.
Proof.
  do 2 eexists. split; [vm_compute; reflexivity|].
  split; [vm_compute; reflexivity|].
  split; [reflexivity|].
  split; [eexists; split; [vm_compute; reflexivity | vm_compute; discriminate]|].
  split; [reflexivity|].
  vm_compute. discriminate.
Qed.

(** ** The equilibrium loop *)

Lemma for_each_break_invariant {I S : Type} (P : S -> Prop)
    (body : I -> S -> result (flow S)) (xs : list I) :
  (forall x s f, In x xs -> P s -> body x s = Ok f -> P (flow_state f)) ->
  forall s s', P s -> for_each_break xs s body = Ok s' -> P s'.
Proof.
  induction xs as [|x xs IH]; intros Hbody s s' Hs H; simpl in H.
  - now injection H as <-.
  - apply bind_ok in H as [f [Hf H]].
    pose proof (Hbody x s f (or_introl eq_refl) Hs Hf) as Hf'.
    destruct f as [s1|s1]; simpl in Hf'.
    + apply (IH (fun x' s0 f0 Hin => Hbody x' s0 f0 (or_intror Hin)) s1 s' Hf' H).
    + now injection H as <-.
Qed.

Section EquilibriumFacts.

Variable ge_algorithm : Q -> result Q.
Variable prm : ss_params.

(** Every update of the guess is damped by [dp_big]: [diff_old] is [np.inf]
    whenever it is compared, so the branch of [dp_small] is never taken. *)
Lemma ss_iteration_damping (it : nat) (st st' : ss_state) :
  ss_iteration ge_algorithm prm it st = Ok (Continue st') ->
  exists diff,
    ge_algorithm (ss_r_guess st) = Ok diff
    /\ ss_r_tol prm <= Qabs diff
    /\ ss_r_guess st' = ss_r_guess st - dp_big prm * diff.
Proof.
  unfold ss_iteration. intros H. apply bind_ok in H as [diff [Hd H]].
  exists diff. split; [exact Hd|].
  destruct (Qlt_le_dec (Qabs diff) (ss_r_tol prm)); [discriminate|].
  injection H as <-. simpl. split; [assumption | reflexivity].
Qed.

(** The loop variable never exceeds [maxit_ss - 1], so the test that guards
    the report of non-convergence is never true. *)
Lemma solve_model_never_reports (sol : ss_solution) :
  solve_model ge_algorithm prm = Ok sol ->
  existsb is_no_convergence (printed sol) = false.
Proof.
  unfold solve_model.
  destruct (Qlt_le_dec ((1 + (2 # 100)) * ss_beta prm) 1); [|discriminate].
  intros H. apply bind_ok in H as [st [Hloop H]].
  assert (Hinv : existsb is_no_convergence (ss_out st) = false
                 /\ forall it, ss_it st = Some it -> (it < maxit_ss prm)%nat).
  { refine (for_each_break_invariant
              (fun st => existsb is_no_convergence (ss_out st) = false
                 /\ forall it, ss_it st = Some it -> (it < maxit_ss prm)%nat)
              _ _ _ _ _ _ Hloop).
    - intros x s f Hin [Hout _] Hb. unfold ss_iteration in Hb.
      apply bind_ok in Hb as [diff [_ Hb]].
      unfold range in Hin. apply in_seq in Hin.
      destruct (Qlt_le_dec (Qabs diff) (ss_r_tol prm)); injection Hb as <-;
        simpl; rewrite !existsb_app, Hout; simpl;
        (split; [reflexivity | intros it' [= <-]; lia]).
    - split; [reflexivity | discriminate]. }
  destruct Hinv as [Hout Hit].
  destruct (ss_it st) as [it|]; [|discriminate].
  injection H as <-. simpl.
  specialize (Hit it eq_refl).
  destruct (Z.ltb_spec (Z.of_nat (maxit_ss prm) - 1) (Z.of_nat it)); [lia|].
  exact Hout.
Qed.

End EquilibriumFacts.

(** C1, on the code.  With the parameters of [setup_parameters] and a
    residual of 1/100 at the first guess and 2/100 at the second, the
    magnitude of the residual grows, and the second update still subtracts
    [dp_big * diff], not [dp_small * diff]. *)
Theorem solve_model_growing_residual :
  exists sol,
    solve_model ge_growing setup_parameters = Ok sol
    /\ ge_growing (2 # 100) = Ok (1 # 100)
    /\ ge_growing ((2 # 100) - dp_big setup_parameters * (1 # 100)) = Ok (2 # 100)
    /\ Qabs (1 # 100) < Qabs (2 # 100)
    /\ r_ss sol ==
       (2 # 100) - dp_big setup_parameters * (1 # 100)
       - dp_big setup_parameters * (2 # 100)
    /\ ~ r_ss sol ==
         (2 # 100) - dp_big setup_parameters * (1 # 100)
         - dp_small setup_parameters * (2 # 100).
Proof.
  eexists. split; [vm_compute; reflexivity|].
  repeat split; try reflexivity.
  vm_compute. discriminate.
Qed.

(** C2, on the code.  With a residual that never meets the tolerance the
    loop runs its 100 rounds, [solve_model] does not raise and keeps the last
    guess as [r_ss], and nothing reports the non-convergence. *)
Theorem solve_model_cap_silent :
  exists sol,
    solve_model ge_far setup_parameters = Ok sol
    /\ length (filter is_iteration (printed sol)) = 100%nat
    /\ existsb is_convergence (printed sol) = false
    /\ r_ss sol == (2 # 100) - inject_Z 100 * (dp_big setup_parameters * 1)
    /\ existsb is_no_convergence (printed sol) = false.
Proof.
  eexists. split; [vm_compute; reflexivity|].
  repeat split; vm_compute; reflexivity.
Qed.

(** ** The Monte Carlo simulation *)

(** The grid size evaluation compares the number of visits of the top edge,
    summed over all periods, with the size of the asset grid: the number of
    agents does not enter. *)
Lemma simulate_MonteCarlo_raises_iff shuffle pol_cons pol_sav r w prm st :
  simulate_paths shuffle pol_sav r w prm = Ok st ->
  sim_grid_a prm <> [] ->
  (simulate_MonteCarlo shuffle pol_cons pol_sav r w prm
   = Raise (Exception "Increase grid size!"%string)
   <-> (length (sim_grid_a prm) < 100 * st_edge st)%nat).
Proof.
  intros Hst Hne. unfold simulate_MonteCarlo, frac_outside. rewrite Hst.
  cbn [bind].
  destruct (sim_grid_a prm) as [|x g] eqn:Eg; [congruence|]. cbn [bind].
  set (n := length (x :: g)).
  assert (Hn : 0 < inject_Z (Z.of_nat n)).
  { change 0 with (inject_Z 0). rewrite <- Zlt_Qlt. subst n. simpl length. lia. }
  assert (Hmul : inject_Z (Z.of_nat (st_edge st)) / inject_Z (Z.of_nat n)
                 * inject_Z (Z.of_nat n) == inject_Z (Z.of_nat (st_edge st))).
  { field. lra. }
  destruct (Qlt_le_dec (1 # 100) (inject_Z (Z.of_nat (st_edge st)) / inject_Z (Z.of_nat n)))
    as [Hlt|Hle].
  - split; [intros _|reflexivity].
    apply (Qmult_lt_compat_r _ _ _ Hn) in Hlt. rewrite Hmul in Hlt.
    assert (H : inject_Z (Z.of_nat n) < inject_Z (100 * Z.of_nat (st_edge st))).
    { rewrite inject_Z_mult. change (inject_Z 100) with (100 # 1). lra. }
    rewrite <- Zlt_Qlt in H. lia.
  - split; [discriminate|]. intros Hc. exfalso.
    apply (Qmult_le_compat_r _ _ (inject_Z (Z.of_nat n))) in Hle; [|lra].
    rewrite Hmul in Hle.
    assert (H : inject_Z (100 * Z.of_nat (st_edge st)) <= inject_Z (Z.of_nat n)).
    { rewrite inject_Z_mult. change (inject_Z 100) with (100 # 1). lra. }
    rewrite <- Zle_Qle in H. lia.
Qed.

(** C6, on the code.  One agent, simulated for one period from the top of
    the 200-point asset grid: the whole cross-section (1 agent of 1) stands
    at the top edge, [edge / grid_a.size] is 1/200, and the simulation
    returns normally. *)
Theorem simulate_MonteCarlo_all_agents_at_top :
  exists st out,
    simulate_paths shuffle_one [grid_a_200; grid_a_200] (1 # 50) 1 sim_one_agent
    = Ok st
    /\ sim_simN sim_one_agent = 1%nat
    /\ agents_at_top [grid_a_200; grid_a_200] (st_sim_sav st) (st_sim_z_idx st)
       = 1%nat
    /\ st_edge st = 1%nat
    /\ length (sim_grid_a sim_one_agent) = 200%nat
    /\ simulate_MonteCarlo shuffle_one [grid_a_200; grid_a_200]
         [grid_a_200; grid_a_200] (1 # 50) 1 sim_one_agent = Ok out.
Proof.
  do 2 eexists. split; [vm_compute; reflexivity|].
  split; [reflexivity|].
  split; [vm_compute; reflexivity|].
  split; [vm_compute; reflexivity|].
  split; vm_compute; reflexivity.
Qed.

(** ** Further properties of the equilibrium loop *)

Lemma solve_model_never_reports_witness :
  exists sol,
    solve_model ge_far (SsParams (96 # 100) (1 # 10000) (1 # 10) (1 # 100) 3)
    = Ok sol
    /\ existsb is_no_convergence (printed sol) = false.
Proof.
  eexists. split.
  - vm_compute. reflexivity.
  - apply (solve_model_never_reports ge_far
             (SsParams (96 # 100) (1 # 10000) (1 # 10) (1 # 100) 3)).
    vm_compute. reflexivity.
Defined.

(** The conservative factor [dp_small] has no effect on what [solve_model]
    computes or prints, whatever the residuals are. *)
Lemma solve_model_ignores_dp_small (ge_algorithm : Q -> result Q)
    (beta tol big small small' : Q) (maxit : nat) :
  solve_model ge_algorithm (SsParams beta tol big small maxit)
  = solve_model ge_algorithm (SsParams beta tol big small' maxit).
Proof.
  unfold solve_model. cbn [ss_beta maxit_ss].
  destruct (Qlt_le_dec ((1 + (2 # 100)) * beta) 1); [|reflexivity].
  (* [diff_old] is [Inf] at the comparison: the two bodies are the same. *)
  change (ss_iteration ge_algorithm (SsParams beta tol big small maxit))
    with (ss_iteration ge_algorithm (SsParams beta tol big small' maxit)).
  reflexivity.
Qed.

(** ** Further properties of the Monte Carlo simulation *)

Lemma simulate_MonteCarlo_raises_iff_witness :
  exists st,
    simulate_paths shuffle_one [grid_a_200; grid_a_200] (1 # 50) 1 sim_one_agent
    = Ok st
    /\ (simulate_MonteCarlo shuffle_one [] [grid_a_200; grid_a_200] (1 # 50) 1
          sim_one_agent = Raise (Exception "Increase grid size!"%string)
        <-> (length (sim_grid_a sim_one_agent) < 100 * st_edge st)%nat).
Proof.
  eexists. split.
  - vm_compute. reflexivity.
  - apply (simulate_MonteCarlo_raises_iff shuffle_one [] [grid_a_200; grid_a_200]
             (1 # 50) 1 sim_one_agent).
    + vm_compute. reflexivity.
    + vm_compute. discriminate.
Defined.

(** ** The binary64 embedding *)

Section Binary64Facts.

Import PrimFloat.
Local Open Scope float_scope.
#[local] Set Warnings "-inexact-float".

Lemma store_app_binary64 (pre : list float) (x : float) (post : list float)
    (v : float) :
  Binary64.store (pre ++ x :: post) (Z.of_nat (length pre)) v
  = Ok (pre ++ v :: post).
Proof.
  unfold Binary64.store. rewrite py_index_nat.
  - simpl. now rewrite set_nth_app.
  - rewrite length_app. simpl. lia.
Qed.

Lemma for_each_store_slice_binary64 (f : nat -> float) (k : nat) :
  forall (a : nat) (pre l post : list float),
    length pre = a -> length l = k ->
    for_each (seq a k) (pre ++ l ++ post)
      (fun i grd => Binary64.store grd (Z.of_nat i) (f i))
    = Ok (pre ++ map f (seq a k) ++ post).
Proof.
  induction k as [|k IH]; intros a pre l post Ha Hl.
  - destruct l; [reflexivity | discriminate].
  - destruct l as [|x l]; [discriminate|].
    simpl. rewrite <- Ha at 1. rewrite store_app_binary64. simpl.
    change (pre ++ f a :: l ++ post) with (pre ++ [f a] ++ (l ++ post)).
    rewrite app_assoc.
    rewrite (IH (S a) (pre ++ [f a]) l post).
    + now rewrite <- app_assoc.
    + rewrite length_app. simpl. lia.
    + simpl in Hl. lia.
Qed.

(** The closed form of the binary64 grid for [num >= 2]. *)
Lemma make_grid_binary64_closed_form pow (min_val max_val : float) (num : nat)
    (curv : float) :
  (2 <= num)%nat ->
  Binary64.make_grid pow min_val max_val num curv =
  Ok (min_val ::
      map (Binary64.grid_point pow min_val (max_val - min_val) num curv)
          (seq 1 (num - 2))
      ++ [max_val]).
Proof.
  intros Hn. unfold Binary64.make_grid.
  assert (Hz : Binary64.zeros num = [] ++ 0 :: Binary64.zeros (num - 2) ++ [0]).
  { unfold Binary64.zeros. replace num with (1 + (num - 2) + 1)%nat at 1 by lia.
    now rewrite !repeat_app. }
  rewrite Hz. rewrite (store_app_binary64 [] 0). cbn [bind].
  change ([] ++ min_val :: Binary64.zeros (num - 2) ++ [0])
    with ((min_val :: Binary64.zeros (num - 2)) ++ [0]).
  replace (Z.of_nat num - 1)%Z
    with (Z.of_nat (length (min_val :: Binary64.zeros (num - 2)))).
  2:{ simpl length. unfold Binary64.zeros. rewrite repeat_length. lia. }
  rewrite (store_app_binary64 (min_val :: Binary64.zeros (num - 2)) 0 [] max_val).
  cbn [bind]. unfold range. replace (num - 1 - 1)%nat with (num - 2)%nat by lia.
  apply (for_each_store_slice_binary64 _ (num - 2) 1 [min_val]
           (Binary64.zeros (num - 2)) [max_val]).
  - reflexivity.
  - apply repeat_length.
Qed.



(** The grid of the witness, as the machine has it. *)
Example make_grid_binary64_5 :
  Binary64.make_grid Binary64.pow_int 0 100 5 3
  = Ok [0; 1.5625; 12.5; 42.1875; 100].
Proof. vm_compute. reflexivity. Qed.


(** *** The Euler equation residual *)

Lemma get_nat_binary64 (a : list float) (i : nat) (v : float) :
  nth_error a i = Some v -> Binary64.get a (Z.of_nat i) = Ok v.
Proof.
  intros H. unfold Binary64.get. rewrite py_index_nat.
  - simpl. now rewrite H.
  - apply nth_error_Some. congruence.
Qed.

Lemma get_row_nat_binary64 (m : list (list float)) (i : nat) (row : list float) :
  nth_error m i = Some row -> Binary64.get_row m (Z.of_nat i) = Ok row.
Proof.
  intros H. unfold Binary64.get_row. rewrite py_index_nat.
  - simpl. now rewrite H.
  - apply nth_error_Some. congruence.
Qed.

Lemma interp_total_binary64 (x y : list float) (v : float) :
  length x = length y -> (0 < length x)%nat ->
  exists s, Binary64.interp x y v = Ok s.
Proof.
  intros Hl Hx. unfold Binary64.interp. rewrite Hl, Nat.eqb_refl. simpl.
  destruct x as [|x0 xs]; [simpl in Hx; lia|].
  destruct y as [|y0 ys]; [discriminate|].
  destruct xs as [|x1 xs], ys as [|y1 ys]; try discriminate; [eauto|].
  destruct (is_nan v); [eauto|]. destruct (v <? x0); eauto.
Qed.

Lemma well_shaped_rows_binary64 (p : Binary64.params_eer) (i : nat) :
  Binary64.well_shaped p = true -> (i < length (Binary64.eer_grid_z p))%nat ->
  exists row, nth_error (Binary64.eer_pol_sav_old p) i = Some row
              /\ length row = length (Binary64.eer_grid_a p).
Proof.
  unfold Binary64.well_shaped. intros H Hi.
  apply andb_prop in H as [H _]. apply andb_prop in H as [H Hrows].
  apply andb_prop in H as [_ Hlen]. apply Nat.leb_le in Hlen.
  destruct (nth_error_lt (Binary64.eer_pol_sav_old p) i ltac:(lia)) as [row Hrow].
  exists row. split; [exact Hrow|].
  rewrite forallb_forall in Hrows. apply Nat.eqb_eq, Hrows.
  apply nth_error_In with (n := i). rewrite nth_error_firstn.
  destruct (Nat.ltb_spec i (length (Binary64.eer_grid_z p))); [exact Hrow | lia].
Qed.

Lemma marg_u_step_total_binary64 pow (a_plus : float) (p : Binary64.params_eer)
    (i_zz : nat) (avg : float) :
  Binary64.well_shaped p = true -> (i_zz < length (Binary64.eer_grid_z p))%nat ->
  exists avg', Binary64.marg_u_step pow a_plus p i_zz avg = Ok avg'.
Proof.
  intros Hp Hi. unfold Binary64.marg_u_step.
  destruct (nth_error_lt _ _ Hi) as [z Hz].
  rewrite (get_nat_binary64 _ _ _ Hz). cbn [bind].
  destruct (well_shaped_rows_binary64 p i_zz Hp Hi) as [row [Hrow Hlen]].
  rewrite (get_row_nat_binary64 _ _ _ Hrow). cbn [bind].
  unfold Binary64.well_shaped in Hp.
  apply andb_prop in Hp as [Hp Hpi]. apply andb_prop in Hp as [Hp _].
  apply andb_prop in Hp as [Hna _]. apply Nat.ltb_lt in Hna.
  destruct (interp_total_binary64 (Binary64.eer_grid_a p) row a_plus
              (eq_sym Hlen) Hna) as [s ->].
  cbn [bind].
  destruct (nth_error (Binary64.eer_pi p) (Binary64.eer_i_z p))
    as [pirow|] eqn:Epi; [|discriminate].
  apply Nat.leb_le in Hpi.
  destruct (nth_error_lt pirow i_zz ltac:(lia)) as [wgt Hw].
  unfold Binary64.get2. rewrite (get_row_nat_binary64 _ _ _ Epi). cbn [bind].
  rewrite (get_nat_binary64 _ _ _ Hw). cbn [bind]. eauto.
Qed.

(** The clamp: the base of the power is a number, and at least [eps],
    whatever the consumption, a NaN included. *)
Lemma fmax_eps_binary64 (c : float) :
  (Binary64.eps <=? Binary64.fmax c Binary64.eps) = true.
Proof.
  unfold Binary64.fmax.
  destruct (is_nan c) eqn:Hn; [vm_compute; reflexivity|].
  change (is_nan Binary64.eps) with false. cbv iota.
  destruct (c <? Binary64.eps) eqn:Hlt; [vm_compute; reflexivity|].
  unfold is_nan in Hn. apply negb_false_iff in Hn.
  rewrite FloatAxioms.eqb_spec in Hn.
  rewrite FloatAxioms.ltb_spec in Hlt. rewrite FloatAxioms.leb_spec.
  let v := eval vm_compute in (FloatOps.Prim2SF Binary64.eps) in
  change (FloatOps.Prim2SF Binary64.eps) with v in *.
  destruct (FloatOps.Prim2SF c) as [s|s| |s m e]; try discriminate.
  - destruct s; [discriminate | reflexivity].
  - destruct s; [discriminate|].
    unfold SpecFloat.SFltb, SpecFloat.SFleb, SpecFloat.SFcompare in *.
    change (PosDef.Pos.compare_cont Eq) with Pos.compare in *.
    rewrite (Z.compare_antisym e), (Pos.compare_antisym m).
    destruct (e ?= -79)%Z; simpl in *; try discriminate; try reflexivity.
    destruct (m ?= _)%positive; simpl in *; try discriminate; reflexivity.
Qed.




(** *** The stationary distribution of the Markov chain *)

Lemma subtract_one_app (pre : list (list float)) (row : list float)
    (post : list (list float)) :
  (length pre < length row)%nat ->
  Binary64.subtract_one (length pre) (pre ++ row :: post)
  = Ok (pre ++ set_nth row (length pre) (nth (length pre) row 0 - 1) :: post).
Proof.
  intros Hlen. unfold Binary64.subtract_one, Binary64.get2.
  assert (Hrow : nth_error (pre ++ row :: post) (length pre) = Some row).
  { rewrite nth_error_app2 by lia. now rewrite Nat.sub_diag. }
  rewrite (get_row_nat_binary64 _ _ _ Hrow). cbn [bind].
  destruct (nth_error_lt row (length pre) Hlen) as [v Hv].
  rewrite (get_nat_binary64 _ _ _ Hv). cbn [bind].
  rewrite (nth_error_nth _ _ 0 Hv).
  unfold Binary64.store2, Binary64.store.
  rewrite py_index_nat by (rewrite length_app; simpl; lia). cbn [bind].
  rewrite Hrow. rewrite py_index_nat by exact Hlen. cbn [bind].
  now rewrite set_nth_app.
Qed.

(** The loop over the diagonal, on the rows that have a diagonal entry. *)
Lemma subtract_identity (mid : list (list float)) :
  forall (a : nat) (pre post : list (list float)),
    length pre = a ->
    Forall (fun row => (a + length mid <= length row)%nat) mid ->
    for_each (seq a (length mid)) (pre ++ mid ++ post) Binary64.subtract_one
    = Ok (pre ++ map (fun '(i, row) => set_nth row i (nth i row 0 - 1))
                     (combine (seq a (length mid)) mid) ++ post).
Proof.
  induction mid as [|row mid IH]; intros a pre post Ha Hrows.
  - reflexivity.
  - inversion Hrows as [|? ? Hrow Hmid]; subst.
    cbn [length seq for_each combine map app]. simpl length in Hrow.
    rewrite subtract_one_app by lia. cbn [bind].
    set (row' := set_nth row (length pre) (nth (length pre) row 0 - 1)).
    change (pre ++ row' :: mid ++ post) with (pre ++ [row'] ++ mid ++ post).
    rewrite app_assoc.
    rewrite (IH (S (length pre)) (pre ++ [row'])).
    + now rewrite <- app_assoc.
    + rewrite length_app. simpl. lia.
    + eapply Forall_impl; [|exact Hmid]. simpl. intros r Hr. lia.
Qed.

Lemma subtract_one_no_column (pre : list (list float)) (row : list float)
    (post : list (list float)) :
  length row = length pre ->
  Binary64.subtract_one (length pre) (pre ++ row :: post) = Raise IndexError.
Proof.
  intros Hlen. unfold Binary64.subtract_one, Binary64.get2.
  assert (Hrow : nth_error (pre ++ row :: post) (length pre) = Some row).
  { rewrite nth_error_app2 by lia. now rewrite Nat.sub_diag. }
  rewrite (get_row_nat_binary64 _ _ _ Hrow). cbn [bind].
  unfold Binary64.get, py_index. rewrite Hlen.
  destruct (Z.leb_spec 0 (Z.of_nat (length pre))); [|lia].
  rewrite Z.ltb_irrefl. reflexivity.
Qed.

Lemma firstn_set_nth (row : list float) (n i : nat) (v : float) :
  firstn n (set_nth row i v)
  = if (i <? n)%nat then set_nth (firstn n row) i v else firstn n row.
Proof.
  revert n i; induction row as [|x row IH]; intros [|n] [|i]; simpl;
    try reflexivity.
  - now destruct (S i <? S n)%nat.
  - rewrite IH. change (S i <? S n)%nat with (i <? n)%nat.
    now destruct (i <? n)%nat.
Qed.

Lemma nth_firstn_lt (row : list float) (n i : nat) :
  (i < n)%nat -> nth i (firstn n row) 0 = nth i row 0.
Proof.
  revert n i; induction row as [|x row IH]; intros [|n] [|i] H; simpl;
    try reflexivity; try lia.
  apply IH. lia.
Qed.

Lemma subtract_identity_all (pi : list (list float)) (ncols : nat) :
  Forall (fun row => length row = ncols) pi -> (length pi <= ncols)%nat ->
  for_each (seq 0 (length pi)) pi Binary64.subtract_one
  = Ok (map (fun '(i, row) => set_nth row i (nth i row 0 - 1)) (enumerate pi)).
Proof.
  intros Hrows Hshape.
  pose proof (subtract_identity pi 0 [] [] eq_refl) as H.
  rewrite app_nil_r in H. simpl app in H. rewrite app_nil_r in H.
  apply H. eapply Forall_impl; [|exact Hrows]. simpl. intros r Hr. lia.
Qed.

Lemma subtract_identity_short (pi : list (list float)) (ncols : nat) :
  Forall (fun row => length row = ncols) pi -> (ncols < length pi)%nat ->
  for_each (seq 0 (length pi)) pi Binary64.subtract_one = Raise IndexError.
Proof.
  intros Hrows Hshape.
  assert (Hpre : length (firstn ncols pi) = ncols)
    by (rewrite length_firstn; lia).
  destruct (skipn ncols pi) as [|row post] eqn:Epost.
  { apply (f_equal (@length _)) in Epost. rewrite length_skipn in Epost.
    simpl in Epost. lia. }
  assert (Hpi : pi = firstn ncols pi ++ row :: post)
    by (rewrite <- Epost; symmetry; apply firstn_skipn).
  assert (Hrow : length row = ncols).
  { rewrite Forall_forall in Hrows. apply Hrows. rewrite Hpi.
    apply in_or_app. right. now left. }
  replace (length pi) with (ncols + S (length post))%nat.
  2:{ rewrite Hpi at 1. rewrite length_app, Hpre. reflexivity. }
  rewrite seq_app, for_each_app. rewrite Hpi at 1.
  rewrite <- Hpre at 1.
  change (firstn ncols pi ++ row :: post)
    with ([] ++ firstn ncols pi ++ row :: post).
  rewrite (subtract_identity (firstn ncols pi) 0 [] (row :: post) eq_refl).
  - cbn [bind app plus seq for_each].
    set (pre := map _ _).
    assert (Hlen : length pre = ncols).
    { unfold pre. rewrite length_map, length_combine, length_seq. lia. }
    rewrite <- Hlen at 1. rewrite subtract_one_no_column; [reflexivity|].
    congruence.
  - rewrite Forall_forall in Hrows |- *. intros r Hr. simpl.
    rewrite (Hrows r); [lia|].
    rewrite <- (firstn_skipn ncols pi). apply in_or_app. now left.
Qed.

Lemma linear_system_spec (pi : list (list float)) (ncols : nat) :
  map (fun row => row ++ [1])
    (map (firstn (length pi - 1))
       (map (fun '(i, row) => set_nth row i (nth i row 0 - 1)) (enumerate pi)))
  = Binary64.linear_system pi.
Proof.
  unfold Binary64.linear_system. rewrite !map_map.
  apply map_ext. intros [i row].
  rewrite firstn_set_nth.
  destruct (Nat.ltb_spec i (length pi - 1)); [|reflexivity].
  now rewrite nth_firstn_lt.
Qed.

(** C7.  [stationary_mc] validates nothing.  On a two-dimensional array
    with at least one row it raises an index error when there are fewer
    columns than rows, and otherwise inverts the system made of the first
    [nrows - 1] columns of [pi] less the identity and a column of ones, and
    returns the product of [0, ..., 0, 1] and the inverse, whenever the
    inversion returns: the sums of the rows and the columns from [nrows] on
    are never read. *)
Theorem stationary_mc_reads_system
    (inv : list (list float) -> result (list (list float)))
    (pi : list (list float)) (ncols : nat) :
  pi <> [] -> Forall (fun row => length row = ncols) pi ->
  ((ncols < length pi)%nat ->
   Binary64.stationary_mc inv pi = Raise IndexError)
  /\ ((length pi <= ncols)%nat ->
      Binary64.stationary_mc inv pi
      = (q_inv <- inv (Binary64.linear_system pi) ;;
         Binary64.dot (Binary64.zeros (length pi - 1) ++ [1]) q_inv)).
Proof.
  intros Hne Hrows. unfold Binary64.stationary_mc, Binary64.shape.
  unfold range. rewrite Nat.sub_0_r. split; intros Hshape.
  - now rewrite (subtract_identity_short pi ncols Hrows Hshape).
  - rewrite (subtract_identity_all pi ncols Hrows Hshape). cbn [bind].
    rewrite (linear_system_spec pi ncols).
    destruct pi as [|row0 rest]; [congruence | reflexivity].
Qed.

Lemma stationary_mc_reads_system_witness :
  ((2 < length Binary64.pi_no_sums)%nat ->
   Binary64.stationary_mc Binary64.inv_2x2 Binary64.pi_no_sums
   = Raise IndexError)
  /\ ((length Binary64.pi_no_sums <= 2)%nat ->
      Binary64.stationary_mc Binary64.inv_2x2 Binary64.pi_no_sums
      = (q_inv <- Binary64.inv_2x2
                    (Binary64.linear_system Binary64.pi_no_sums) ;;
         Binary64.dot
           (Binary64.zeros (length Binary64.pi_no_sums - 1) ++ [1]) q_inv)).
Proof.
  apply (stationary_mc_reads_system Binary64.inv_2x2 Binary64.pi_no_sums 2).
  - discriminate.
  - repeat constructor.
Defined.

(** A matrix whose rows sum to 9.75 and 9.25 and a matrix with two rows and
    three columns are accepted: each has the first column of the chain
    [[0.75, 0.25], [0.25, 0.75]] and gets its stationary distribution. *)
Lemma stationary_mc_accepts_any_matrix :
  Binary64.stationary_mc Binary64.inv_2x2 Binary64.pi_chain = Ok [0.5; 0.5]
  /\ (Binary64.stationary_mc Binary64.inv_2x2 Binary64.pi_no_sums
      = Ok [0.5; 0.5]
      /\ (0.75 + 9 =? 1) = false /\ (0.25 + 9 =? 1) = false)
  /\ (Binary64.stationary_mc Binary64.inv_2x2 Binary64.pi_wide = Ok [0.5; 0.5]
      /\ Binary64.shape Binary64.pi_wide = (2%nat, 3%nat)).
Proof.
  repeat split; vm_compute; reflexivity.
Qed.

End Binary64Facts.
